(** * Currency swap form: the quote and validation engine

    A shallow embedding of the pure core of the swap form (the functions
    [safeParseNumber], [iconUrl], [pseudoBalance], [parsePrices] and the
    derived values [rate], [amountOut], [minReceived], [inputUSD],
    [outputUSD], [validation] of the [App] component), and the properties
    its design document states about them.

    JavaScript numbers are IEEE 754 binary64 values: they are modelled by
    Rocq's primitive floats, which are the same format.  JavaScript strings
    are sequences of UTF-16 code units: they are modelled by lists of
    integers.  The parts of the JavaScript engine whose result depends on
    Unicode tables, on the locale, or on decimal conversion
    ([toUpperCase], [localeCompare], [Number] on a string, [String] on a
    number) are fields of a [Runtime] record. *)

From Stdlib Require Import String Ascii.
From Stdlib Require Import ZArith List Bool Lia.
From Stdlib Require Import Floats Uint63.
From Stdlib Require Import Sorting.Sorted Sorting.Permutation.
Import ListNotations.

Set Warnings "-register-all,-abstract-large-number,-inexact-float".

(* ================================================================== *)
(** * Numbers *)

Module Num.

Local Open Scope float_scope.

(** [Number.isFinite] on a number. *)
Definition isFinite (x : float) : bool := PrimFloat.is_finite x.

(** A small non-negative integer as a number (exact below [2^53]). *)
Definition of_Z (z : Z) : float := PrimFloat.of_uint63 (Uint63.of_Z z).

(** [Math.max(a, b)]: [NaN] if either is [NaN]; [+0] is larger than [-0]. *)
Definition Math_max (a b : float) : float :=
  if PrimFloat.is_nan a || PrimFloat.is_nan b then nan
  else if a <? b then b
  else if b <? a then a
  else if PrimFloat.get_sign a then b else a.

(** The specification-level view of a number. *)
Definition sf (x : float) : spec_float := Prim2SF x.

(** The mantissa of a shift record is not negative. *)
Definition shr_nonneg (r : shr_record) : Prop := (0 <= shr_m r)%Z.

End Num.

(* ================================================================== *)
(** * Strings *)

Module Str.

Local Open Scope Z_scope.

(** A JavaScript string: its UTF-16 code units, each in [0, 65535]. *)
Definition jsstring := list Z.

(** An ASCII literal as a JavaScript string. *)
Definition js (s : string) : jsstring :=
  map (fun a => Z.of_N (N_of_ascii a)) (list_ascii_of_string s).

(** [a === b] on strings. *)
Fixpoint eqb (a b : jsstring) : bool :=
  match a, b with
  | [], [] => true
  | x :: a', y :: b' => Z.eqb x y && eqb a' b'
  | _, _ => false
  end.

(** [!s] on a string: only the empty string is falsy. *)
Definition isEmpty (s : jsstring) : bool :=
  match s with [] => true | _ :: _ => false end.

(** The code units [String.prototype.trim] strips: the WhiteSpace and
    LineTerminator code points of ECMA-262 (all of them in the BMP). *)
Definition isWhiteSpace (c : Z) : bool :=
  ((9 <=? c) && (c <=? 13)) || (c =? 32) || (c =? 160) || (c =? 5760)
  || ((8192 <=? c) && (c <=? 8202)) || (c =? 8232) || (c =? 8233)
  || (c =? 8239) || (c =? 8287) || (c =? 12288) || (c =? 65279).

Fixpoint trimStart (s : jsstring) : jsstring :=
  match s with
  | [] => []
  | c :: r => if isWhiteSpace c then trimStart r else s
  end.

Definition trimEnd (s : jsstring) : jsstring := rev (trimStart (rev s)).

(** [s.trim()] *)
Definition trim (s : jsstring) : jsstring := trimEnd (trimStart s).

(** [s.replace(/,/g, '')] *)
Fixpoint removeCommas (s : jsstring) : jsstring :=
  match s with
  | [] => []
  | c :: r => if c =? 44 then removeCommas r else c :: removeCommas r
  end.

(** [s.charCodeAt(i)] for [i] within the string. *)
Definition charCodeAt (s : jsstring) (i : nat) : Z := nth i s 0%Z.

End Str.

(* ================================================================== *)
(** * BalanceSimulator: [pseudoBalance] *)

Module Balance.

Import Str.
Local Open Scope Z_scope.

(** [v >>> 0] on a non-negative integer value: reduction to 32 bits. *)
Definition toUint32 (v : Z) : Z := v mod 2 ^ 32.

(** The body of the loop: [x = (x * 31 + symbol.charCodeAt(i)) >>> 0].
    [x] stays below [2^32] and a code unit below [2^16], so the number
    [x * 31 + c] is below [2^53] and the double arithmetic is exact. *)
Definition step (symbol : jsstring) (i : nat) (x : Z) : Z :=
  toUint32 (x * 31 + charCodeAt symbol i).

(** [for (let i = ...; i < symbol.length; i++) ...], with [n] iterations
    left to run. *)
Fixpoint loop (symbol : jsstring) (n : nat) (i : nat) (x : Z) : Z :=
  match n with
  | O => x
  | S n' => loop symbol n' (S i) (step symbol i x)
  end.

Definition hash (symbol : jsstring) : Z :=
  loop symbol (List.length symbol) 0%nat 0.

(** [pseudoBalance(symbol)] *)
Definition pseudoBalance (symbol : jsstring) : float :=
  let x := hash symbol in
  let base := (Num.of_Z (x mod 9500) / Num.of_Z 100)%float in
  Num.Math_max (Num.of_Z 1) base.

(** ** The hash as a fold over the code units *)

(** The design document's wording: fold the character codes through the
    base-31 multiplicative/additive hash, masked to 32 bits. *)
Definition hash_fold (symbol : jsstring) : Z :=
  fold_left (fun x c => (x * 31 + c) mod 2 ^ 32) symbol 0.

(** Reduce modulo 9500, divide by 100, floor at a minimum of 1. *)
Definition balance_of_hash (h : Z) : float :=
  Num.Math_max (Num.of_Z 1) (Num.of_Z (h mod 9500) / Num.of_Z 100)%float.

(** Every value [x % 9500] can take. *)
Definition residues : list Z := map Z.of_nat (seq 0 (Z.to_nat 9500)).

(** The balance derived from the hash value [k] is finite and at least 1. *)
Definition balance_ok (k : Z) : bool :=
  let b := balance_of_hash k in
  (Num.of_Z 1 <=? b)%float && Num.isFinite b.

End Balance.


(* ================================================================== *)
(** * JavaScript values and the engine's built-ins *)

Module JS.

Import Str.
Local Open Scope Z_scope.

(** The exceptions the modelled code can raise. *)
Inductive error : Type := TypeError | URIError.

(** The outcome of an evaluation: a value, or a thrown exception. *)
Inductive result (A : Type) : Type :=
| Ok (a : A)
| Throw (e : error).

Arguments Ok {A} a.
Arguments Throw {A} e.

Definition bind {A B : Type} (r : result A) (k : A -> result B) : result B :=
  match r with
  | Ok a => k a
  | Throw e => Throw e
  end.

Notation "x <- a ;; b" := (bind a (fun x => b))
  (at level 61, a at next level, right associativity).

(** A value as [res.json()] yields it, with [undefined] added (a missing
    property).  [VObj] holds the own properties in [Object.entries]
    order. *)
Inductive value : Type :=
| VUndefined
| VNull
| VBool (b : bool)
| VNum (n : float)
| VStr (s : jsstring)
| VArr (elems : list value)
| VObj (props : list (jsstring * value)).

(** The built-ins whose results come from Unicode tables, the locale or
    decimal conversion. *)
Record Runtime : Type := {
  toUpperCase : jsstring -> jsstring;                (* s.toUpperCase() *)
  localeCompare : jsstring -> jsstring -> comparison; (* sign of a.localeCompare(b) *)
  StringToNumber : jsstring -> float;                (* Number(s) on a string *)
  NumberToString : float -> jsstring                 (* String(n) on a number *)
}.

(** The value as a condition: [!!v]. *)
Definition truthy (v : value) : bool :=
  match v with
  | VUndefined | VNull => false
  | VBool b => b
  | VNum n => negb (PrimFloat.is_nan n || PrimFloat.is_zero n)
  | VStr s => negb (isEmpty s)
  | VArr _ | VObj _ => true
  end.

(** [typeof v === 'object'] *)
Definition isObject (v : value) : bool :=
  match v with
  | VNull | VArr _ | VObj _ => true
  | _ => false
  end.

Fixpoint lookup (k : jsstring) (props : list (jsstring * value)) : option value :=
  match props with
  | [] => None
  | (k', v) :: rest => if eqb k k' then Some v else lookup k rest
  end.

(** [v.k] for a name [k] that no built-in prototype defines and that is
    neither an index nor [length] (here: [currency], [symbol], [price]).
    Reading a property of [null] or [undefined] throws. *)
Definition get (v : value) (k : jsstring) : result value :=
  match v with
  | VUndefined | VNull => Throw TypeError
  | VObj props =>
      match lookup k props with
      | Some x => Ok x
      | None => Ok VUndefined
      end
  | _ => Ok VUndefined
  end.

(** [k in v] for an object [v] and such a name [k]. *)
Definition hasProperty (k : jsstring) (v : value) : bool :=
  match v with
  | VObj props => match lookup k props with Some _ => true | None => false end
  | _ => false
  end.

(** [String(v)].  An array is joined with commas, [null] and [undefined]
    elements giving the empty string.  A plain object gives
    ["[object Object]"], unless it has an own property [toString]: a
    parsed value is never callable, the inherited [valueOf] returns the
    object itself, and the conversion throws. *)
Fixpoint ToString (rt : Runtime) (v : value) : result jsstring :=
  match v with
  | VUndefined => Ok (js "undefined")
  | VNull => Ok (js "null")
  | VBool true => Ok (js "true")
  | VBool false => Ok (js "false")
  | VNum n => Ok (NumberToString rt n)
  | VStr s => Ok s
  | VArr elems =>
      (fix join (l : list value) : result jsstring :=
         match l with
         | [] => Ok []
         | x :: rest =>
             a <- match x with
                  | VUndefined | VNull => Ok []
                  | _ => ToString rt x
                  end ;;
             match rest with
             | [] => Ok a
             | _ :: _ => b <- join rest ;; Ok (a ++ js "," ++ b)
             end
         end) elems
  | VObj props =>
      match lookup (js "toString") props with
      | Some _ => Throw TypeError
      | None => Ok (js "[object Object]")
      end
  end.

(** ** [encodeURIComponent] *)

(** The characters left as they are: letters, digits and [-_.!~*'()]. *)
Definition unreserved (c : Z) : bool :=
  ((48 <=? c) && (c <=? 57)) || ((65 <=? c) && (c <=? 90))
  || ((97 <=? c) && (c <=? 122))
  || (c =? 45) || (c =? 95) || (c =? 46) || (c =? 33) || (c =? 126)
  || (c =? 42) || (c =? 39) || (c =? 40) || (c =? 41).

Definition hexDigit (n : Z) : Z := if n <? 10 then 48 + n else 55 + n.

(** The escape [%XX] of one byte. *)
Definition pct (b : Z) : jsstring :=
  [37; hexDigit ((b / 16) mod 16); hexDigit (b mod 16)].

(** The UTF-8 bytes of a code point. *)
Definition utf8 (cp : Z) : list Z :=
  if cp <? 128 then [cp]
  else if cp <? 2048 then [192 + cp / 64; 128 + cp mod 64]
  else if cp <? 65536 then
    [224 + cp / 4096; 128 + (cp / 64) mod 64; 128 + cp mod 64]
  else
    [240 + cp / 262144; 128 + (cp / 4096) mod 64;
     128 + (cp / 64) mod 64; 128 + cp mod 64].

Definition isLead (c : Z) : bool := (55296 <=? c) && (c <=? 56319).
Definition isTrail (c : Z) : bool := (56320 <=? c) && (c <=? 57343).

Definition escape (cp : Z) : jsstring := flat_map pct (utf8 cp).

(** [encodeURIComponent(s)]: throws [URIError] on an unpaired surrogate. *)
Fixpoint encodeURIComponent (s : jsstring) : result jsstring :=
  match s with
  | [] => Ok []
  | c :: rest =>
      if unreserved c then r <- encodeURIComponent rest ;; Ok (c :: r)
      else if isLead c then
        match rest with
        | d :: rest' =>
            if isTrail d then
              r <- encodeURIComponent rest' ;;
              Ok (escape (65536 + (c - 55296) * 1024 + (d - 56320)) ++ r)
            else Throw URIError
        | [] => Throw URIError
        end
      else if isTrail c then Throw URIError
      else r <- encodeURIComponent rest ;; Ok (escape c ++ r)
  end.

End JS.

(* ================================================================== *)
(** * PriceNormalizer: [iconUrl] and [parsePrices] *)

Module Token.

(** [type Token = { symbol: string; price: number; iconUrl: string }] *)
Record t : Type := mk {
  symbol : Str.jsstring;
  price : float;
  iconUrl : Str.jsstring
}.

End Token.

Module Normalizer.

Import Str JS.
Local Open Scope Z_scope.

Definition iconPrefix : jsstring :=
  js "https://raw.githubusercontent.com/Switcheo/token-icons/main/tokens/".

(** [iconUrl(symbol)] *)
Definition iconUrl (symbol : jsstring) : result jsstring :=
  e <- encodeURIComponent symbol ;;
  Ok (iconPrefix ++ e ++ js ".svg").

(** [symRaw || ''] *)
Definition orEmpty (symRaw : value) : value :=
  if truthy symRaw then symRaw else VStr [].

(** [typeof priceRaw === 'string' ? Number(priceRaw) : (priceRaw as number)]:
    the cast changes nothing at run time. *)
Definition coercePrice (rt : Runtime) (priceRaw : value) : value :=
  match priceRaw with
  | VStr p => VNum (StringToNumber rt p)
  | _ => priceRaw
  end.

(** The closure [push] of [parsePrices], with the array [out] it appends
    to passed in and returned.  [Number.isFinite] is false on anything
    that is not a number, and then [price <= 0] is not evaluated. *)
Definition push (rt : Runtime) (out : list Token.t) (symRaw priceRaw : value)
  : result (list Token.t) :=
  s <- ToString rt (orEmpty symRaw) ;;
  let symbol := trim s in
  match coercePrice rt priceRaw with
  | VNum price =>
      if isEmpty symbol || negb (Num.isFinite price) || (price <=? 0)%float
      then Ok out
      else
        u <- iconUrl symbol ;;
        Ok (out ++ [Token.mk symbol price u])
  | _ => Ok out
  end.

(** The arguments of [push(row.currency ?? row.symbol, row.price)]. *)
Definition rowCandidate (row : value) : result (value * value) :=
  c <- get row (js "currency") ;;
  s <- match c with
       | VUndefined | VNull => get row (js "symbol")
       | _ => Ok c
       end ;;
  p <- get row (js "price") ;;
  Ok (s, p).

(** The arguments of the call of [push] made for the entry [[k, v]]. *)
Definition entryCandidate (kv : jsstring * value) : result (value * value) :=
  let (k, v) := kv in
  if truthy v && isObject v && hasProperty (js "price") v
  then p <- get v (js "price") ;; Ok (VStr k, p)
  else Ok (VStr k, v).

(** [for (const x of xs) push(...)], for either shape of feed. *)
Fixpoint pushAll {A : Type} (rt : Runtime) (cand : A -> result (value * value))
  (xs : list A) (out : list Token.t) : result (list Token.t) :=
  match xs with
  | [] => Ok out
  | x :: rest =>
      c <- cand x ;;
      out' <- push rt out (fst c) (snd c) ;;
      pushAll rt cand rest out'
  end.

(** The array [out] when the two loops are over. *)
Definition pushed (rt : Runtime) (data : value) : result (list Token.t) :=
  match data with
  | VArr rows => pushAll rt rowCandidate rows []
  | VObj entries => pushAll rt entryCandidate entries []
  | _ => Ok []
  end.

(** [map.set(k, v)] on a [Map], which keeps its keys in the order of
    their first insertion. *)
Fixpoint mapSet {V : Type} (m : list (jsstring * V)) (k : jsstring) (v : V)
  : list (jsstring * V) :=
  match m with
  | [] => [(k, v)]
  | (k', v') :: rest =>
      if eqb k k' then (k', v) :: rest else (k', v') :: mapSet rest k v
  end.

(** [map.get(k)] *)
Fixpoint mapGet {V : Type} (m : list (jsstring * V)) (k : jsstring) : option V :=
  match m with
  | [] => None
  | (k', v) :: rest => if eqb k k' then Some v else mapGet rest k
  end.

(** [{ ...t, symbol: t.symbol.toUpperCase() }] *)
Definition upperToken (rt : Runtime) (t : Token.t) : Token.t :=
  Token.mk (toUpperCase rt (Token.symbol t)) (Token.price t) (Token.iconUrl t).

(** [for (const t of out) map.set(t.symbol.toUpperCase(), {...})] *)
Definition dedupe (rt : Runtime) (out : list Token.t) : list (jsstring * Token.t) :=
  fold_left (fun m t => mapSet m (toUpperCase rt (Token.symbol t)) (upperToken rt t))
            out [].

(** [[...map.values()]] *)
Definition mapValues (m : list (jsstring * Token.t)) : list Token.t := map snd m.

(** [(a, b) => a.symbol.localeCompare(b.symbol)] *)
Definition bySymbol (rt : Runtime) (a b : Token.t) : comparison :=
  localeCompare rt (Token.symbol a) (Token.symbol b).

(** [Array.prototype.sort] is stable; for a comparator that is a total
    preorder the stable sort is unique, and it is computed here by
    insertion. *)
Fixpoint insert {A : Type} (cmp : A -> A -> comparison) (x : A) (l : list A) : list A :=
  match l with
  | [] => [x]
  | y :: rest =>
      match cmp x y with
      | Gt => y :: insert cmp x rest
      | _ => x :: l
      end
  end.

Definition sort {A : Type} (cmp : A -> A -> comparison) (l : list A) : list A :=
  fold_right (insert cmp) [] l.

(** [a] does not sort after [b]: the comparator's result is not positive. *)
Definition notAfter {A : Type} (cmp : A -> A -> comparison) (a b : A) : Prop :=
  cmp a b <> Gt.

(** The part of [parsePrices] after the loops: de-dupe and sort. *)
Definition finish (rt : Runtime) (out : list Token.t) : list Token.t :=
  sort (bySymbol rt) (mapValues (dedupe rt out)).

(** [parsePrices(data)] *)
Definition parsePrices (rt : Runtime) (data : value) : result (list Token.t) :=
  out <- pushed rt data ;;
  Ok (finish rt out).

End Normalizer.

(* ================================================================== *)
(** * QuoteEngine and SwapValidator: the derived values of [App] *)

Module Quote.

Import Str JS.
Local Open Scope float_scope.

(** [safeParseNumber(v)] *)
Definition safeParseNumber (rt : Runtime) (v : jsstring) : float :=
  let cleaned := trim (removeCommas v) in
  if isEmpty cleaned then nan
  else
    let n := StringToNumber rt cleaned in
    if Num.isFinite n then n else nan.

(** [tokenIn?.price ?? NaN] *)
Definition priceOf (token : option Token.t) : float :=
  match token with
  | Some t => Token.price t
  | None => nan
  end.

Definition rate (priceIn priceOut : float) : float :=
  if negb (Num.isFinite priceIn) || negb (Num.isFinite priceOut) || (priceOut <=? 0)
  then nan
  else priceIn / priceOut.

Definition amountOut (rate debouncedAmountIn : float) : float :=
  if negb (Num.isFinite rate) || negb (Num.isFinite debouncedAmountIn) then nan
  else if debouncedAmountIn <=? 0 then nan
  else debouncedAmountIn * rate.

Definition minReceived (amountOut slippageBps : float) : float :=
  if negb (Num.isFinite amountOut) then nan
  else amountOut * (1 - slippageBps / 10000).

Definition inputUSD (amountIn priceIn : float) : float :=
  if Num.isFinite amountIn && Num.isFinite priceIn then amountIn * priceIn else nan.

Definition outputUSD (amountOut priceOut : float) : float :=
  if Num.isFinite amountOut && Num.isFinite priceOut then amountOut * priceOut else nan.

(** The quote of a selection, an amount and a slippage setting, as [App]
    chains the values above (with the debounce settled). *)
Record Quote : Type := {
  q_rate : float;
  q_amountOut : float;
  q_minReceived : float
}.

Definition quote (tokenIn tokenOut : option Token.t) (amountIn slippageBps : float)
  : Quote :=
  let r := rate (priceOf tokenIn) (priceOf tokenOut) in
  let o := amountOut r amountIn in
  {| q_rate := r; q_amountOut := o; q_minReceived := minReceived o slippageBps |}.

(** The [balances] map: [m.set(t.symbol, pseudoBalance(t.symbol))] for
    each token. *)
Definition balances (tokens : list Token.t) : list (jsstring * float) :=
  fold_left
    (fun m t => Normalizer.mapSet m (Token.symbol t)
                  (Balance.pseudoBalance (Token.symbol t)))
    tokens [].

(** [tokenIn ? balances.get(tokenIn.symbol) ?? 0 : 0] *)
Definition balanceIn (tokens : list Token.t) (tokenIn : option Token.t) : float :=
  match tokenIn with
  | Some t =>
      match Normalizer.mapGet (balances tokens) (Token.symbol t) with
      | Some b => b
      | None => 0
      end
  | None => 0
  end.

Record Verdict : Type := { ok : bool; msg : jsstring }.

Definition validation (tokenIn tokenOut : option Token.t) (amountInRaw : jsstring)
  (amountIn balanceIn amountOut : float) : Verdict :=
  match tokenIn, tokenOut with
  | Some tin, Some tout =>
      if eqb (Token.symbol tin) (Token.symbol tout)
      then {| ok := false; msg := js "Pick two different tokens" |}
      else if isEmpty (trim amountInRaw)
      then {| ok := false; msg := js "Enter an amount" |}
      else if negb (Num.isFinite amountIn) || (amountIn <=? 0)
      then {| ok := false; msg := js "Enter a valid amount" |}
      else if balanceIn <? amountIn
      then {| ok := false; msg := js "Insufficient balance" |}
      else if negb (Num.isFinite amountOut) || (amountOut <=? 0)
      then {| ok := false; msg := js "Unable to quote price" |}
      else {| ok := true; msg := js "" |}
  | _, _ => {| ok := false; msg := js "Pick tokens" |}
  end.

End Quote.

(* ================================================================== *)
(** * The design document's vocabulary *)

Module Spec.

Import Str JS Normalizer.

(** ** What the engine's case mapping and collation are assumed to do *)

(** Upper-casing is idempotent, keeps a non-empty string non-empty,
    puts no white space at the ends of a string that has none there, and
    leaves no unpaired surrogate in a string that has none. *)
Record CaseLaws (rt : Runtime) : Prop := {
  upper_idem : forall s, toUpperCase rt (toUpperCase rt s) = toUpperCase rt s;
  upper_nonempty : forall s, s <> [] -> toUpperCase rt s <> [];
  upper_trim : forall s, trim s = s -> trim (toUpperCase rt s) = toUpperCase rt s;
  upper_encodable : forall s e,
      encodeURIComponent s = Ok e ->
      exists e', encodeURIComponent (toUpperCase rt s) = Ok e'
}.

(** [localeCompare] is a consistent comparator: a total preorder. *)
Record CollationLaws (rt : Runtime) : Prop := {
  cmp_antisym : forall a b, localeCompare rt b a = CompOpp (localeCompare rt a b);
  cmp_trans : forall a b c,
      localeCompare rt a b <> Gt -> localeCompare rt b c <> Gt ->
      localeCompare rt a c <> Gt
}.

(** The collation tells apart the symbols of the list: two of them
    compare equal only if they are the same string. *)
Definition Separates (rt : Runtime) (l : list Token.t) : Prop :=
  forall a b, In a l -> In b l ->
    localeCompare rt (Token.symbol a) (Token.symbol b) = Eq ->
    Token.symbol a = Token.symbol b.

(** Ascending by symbol, a token never comparing greater than a later one. *)
Definition SortedBySymbol (rt : Runtime) (l : list Token.t) : Prop :=
  StronglySorted (notAfter (bySymbol rt)) l.

(** Strictly ascending by symbol. *)
Definition StrictlySortedBySymbol (rt : Runtime) (l : list Token.t) : Prop :=
  StronglySorted (fun a b => bySymbol rt a b = Lt) l.

(** ** Candidate entries of a feed *)

(** The candidate entries of a feed, in iteration order: the arguments
    of each call of [push]. *)
Definition candidates (data : value) : list (result (value * value)) :=
  match data with
  | VArr rows => map rowCandidate rows
  | VObj entries => map entryCandidate entries
  | _ => []
  end.

Definition Candidate (data : value) (c : value * value) : Prop :=
  In (Ok c) (candidates data).

(** A candidate is rejected when its symbol is empty after trimming, its
    price is not a finite number (after numeric parsing of a string), or
    its price is not above zero. *)
Definition rejects (rt : Runtime) (c : value * value) : bool :=
  match ToString rt (orEmpty (fst c)) with
  | Ok s => isEmpty (trim s)
  | Throw _ => false
  end
  || match coercePrice rt (snd c) with
     | VNum p => negb (Num.isFinite p) || (p <=? 0)%float
     | _ => true
     end.

(** The token a candidate yields before the symbol is upper-cased: its
    trimmed symbol, its price, and the icon of the trimmed symbol. *)
Definition Yields (rt : Runtime) (c : value * value) (t0 : Token.t) : Prop :=
  exists s,
    ToString rt (orEmpty (fst c)) = Ok s
    /\ Token.symbol t0 = trim s
    /\ coercePrice rt (snd c) = VNum (Token.price t0)
    /\ iconUrl (trim s) = Ok (Token.iconUrl t0).

(** ** Icons *)

(** The characters of an icon reference: unreserved characters, [%],
    and the [:] and [/] of the fixed prefix. *)
Definition urlChar (c : Z) : bool :=
  (unreserved c || (c =? 37) || (c =? 58) || (c =? 47))%Z.

(** ** Re-injection of a token list *)

(** A token as the object [{ symbol, price, iconUrl }]. *)
Definition tokenValue (t : Token.t) : value :=
  VObj [ (js "symbol", VStr (Token.symbol t));
         (js "price", VNum (Token.price t));
         (js "iconUrl", VStr (Token.iconUrl t)) ].

Definition reinject (l : list Token.t) : value := VArr (map tokenValue l).

(** The token with its icon derived again, from the symbol it now has. *)
Definition reicon (t : Token.t) : result Token.t :=
  u <- iconUrl (Token.symbol t) ;;
  Ok (Token.mk (Token.symbol t) (Token.price t) u).

Fixpoint mapM {A B : Type} (f : A -> result B) (l : list A) : result (list B) :=
  match l with
  | [] => Ok []
  | x :: rest => y <- f x ;; ys <- mapM f rest ;; Ok (y :: ys)
  end.

(** A canonical token list: what [parsePrices] returns. *)
Definition Canonical (rt : Runtime) (l : list Token.t) : Prop :=
  Forall (fun t => Token.symbol t <> []
                   /\ trim (Token.symbol t) = Token.symbol t
                   /\ toUpperCase rt (Token.symbol t) = Token.symbol t
                   /\ Num.isFinite (Token.price t) = true
                   /\ (0 <? Token.price t)%float = true) l
  /\ NoDup (map Token.symbol l)
  /\ SortedBySymbol rt l.

(** Every icon is the one [iconUrl] derives from the token's symbol. *)
Definition IconsFromSymbols (l : list Token.t) : Prop :=
  Forall (fun t => iconUrl (Token.symbol t) = Ok (Token.iconUrl t)) l.

(** ** The validator's rules, in the order of the design document *)

Inductive rule : Type :=
| TokensSelected
| TokensDistinct
| AmountEntered
| AmountValid
| BalanceSufficient
| OutputQuotable.

Definition rules : list rule :=
  [TokensSelected; TokensDistinct; AmountEntered; AmountValid;
   BalanceSufficient; OutputQuotable].

Record State : Type := {
  tokenIn : option Token.t;
  tokenOut : option Token.t;
  amountInText : jsstring;
  amountIn : float;
  balance : float;
  amountOut : float
}.

Definition passes (s : State) (r : rule) : bool :=
  match r with
  | TokensSelected =>
      match tokenIn s, tokenOut s with
      | Some _, Some _ => true
      | _, _ => false
      end
  | TokensDistinct =>
      match tokenIn s, tokenOut s with
      | Some a, Some b => negb (eqb (Token.symbol a) (Token.symbol b))
      | _, _ => true
      end
  | AmountEntered => negb (isEmpty (trim (amountInText s)))
  | AmountValid => Num.isFinite (amountIn s) && (0 <? amountIn s)%float
  | BalanceSufficient => (amountIn s <=? balance s)%float
  | OutputQuotable => Num.isFinite (amountOut s) && (0 <? amountOut s)%float
  end.

(** The reason attached to a failing rule, as the form words it. *)
Definition reason (r : rule) : jsstring :=
  match r with
  | TokensSelected => js "Pick tokens"
  | TokensDistinct => js "Pick two different tokens"
  | AmountEntered => js "Enter an amount"
  | AmountValid => js "Enter a valid amount"
  | BalanceSufficient => js "Insufficient balance"
  | OutputQuotable => js "Unable to quote price"
  end.

(** The rules evaluated in order, the first failing one deciding. *)
Definition verdict (s : State) : Quote.Verdict :=
  match find (fun r => negb (passes s r)) rules with
  | Some r => {| Quote.ok := false; Quote.msg := reason r |}
  | None => {| Quote.ok := true; Quote.msg := js "" |}
  end.

(** The slippage settings: whole basis points from 0 to 200. *)
Definition slippageSettings : list Z := map Z.of_nat (seq 0 201).

End Spec.

(* ================================================================== *)
(** * Sample engines *)

(** Two engines on which the statements below are exercised.  [ascii]
    agrees with ECMAScript on ASCII letters, on short unsigned decimal
    literals and on small integers, and compares strings by code units.
    [canonical] differs by its collation only, which treats the letter
    U+00C5 and the sequence U+0041 U+030A as equal: ECMA-262 requires
    [localeCompare] to return 0 on canonically equivalent strings. *)
Module Sample.

Import Str JS.
Local Open Scope Z_scope.

Definition upperUnit (c : Z) : Z :=
  if (97 <=? c) && (c <=? 122) then c - 32 else c.

Definition upperAscii (s : jsstring) : jsstring := map upperUnit s.

(** Lexicographic comparison by code units. *)
Fixpoint compareUnits (a b : jsstring) : comparison :=
  match a, b with
  | [], [] => Eq
  | [], _ :: _ => Lt
  | _ :: _, [] => Gt
  | x :: a', y :: b' =>
      match x ?= y with
      | Eq => compareUnits a' b'
      | c => c
      end
  end.

Definition isDigit (c : Z) : bool := (48 <=? c) && (c <=? 57).

Fixpoint digitsValue (acc : Z) (s : jsstring) : option Z :=
  match s with
  | [] => Some acc
  | c :: r => if isDigit c then digitsValue (acc * 10 + (c - 48)) r else None
  end.

(** The string before the first dot, and what follows the dot. *)
Fixpoint splitDot (s : jsstring) : jsstring * jsstring :=
  match s with
  | [] => ([], [])
  | c :: r =>
      if c =? 46 then ([], r)
      else let (a, b) := splitDot r in (c :: a, b)
  end.

(** [Number(s)] for [digits], [digits.digits], [digits.] and [.digits]
    with at most 15 digits in all (both the digits read as an integer
    and the power of ten are then exact, and their quotient is correctly
    rounded); white space around is ignored and the empty string is 0.
    Anything else is answered with [NaN]. *)
Definition decimalToNumber (s : jsstring) : float :=
  match trim s with
  | [] => 0%float
  | t =>
      let (ip, fp) := splitDot t in
      if isEmpty (ip ++ fp) then nan
      else
        match digitsValue 0 (ip ++ fp) with
        | Some n =>
            if (Z.of_nat (List.length (ip ++ fp)) <=? 15)
            then (Num.of_Z n / Num.of_Z (10 ^ Z.of_nat (List.length fp)))%float
            else nan
        | None => nan
        end
  end.

Fixpoint digitsOf (fuel : nat) (n : Z) (acc : jsstring) : jsstring :=
  match fuel with
  | O => acc
  | S fuel' =>
      if n <? 10 then (48 + n) :: acc
      else digitsOf fuel' (n / 10) ((48 + n mod 10) :: acc)
  end.

(** [String(n)] for [NaN], the infinities, zero and the integers below
    [2^53]; other numbers are answered with the empty string. *)
Definition integerToString (n : float) : jsstring :=
  match Prim2SF n with
  | S754_nan => js "NaN"
  | S754_infinity false => js "Infinity"
  | S754_infinity true => js "-Infinity"
  | S754_zero _ => js "0"
  | S754_finite s m e =>
      if (0 <=? e) && (Z.pos m * 2 ^ e <? 2 ^ 53)
      then (if s then js "-" else []) ++ digitsOf 17 (Z.pos m * 2 ^ e) []
      else if (e <? 0) && ((Z.pos m) mod 2 ^ (- e) =? 0)
      then (if s then js "-" else []) ++ digitsOf 17 (Z.pos m / 2 ^ (- e)) []
      else []
  end.

Definition ascii : Runtime := {|
  toUpperCase := upperAscii;
  localeCompare := compareUnits;
  StringToNumber := decimalToNumber;
  NumberToString := integerToString
|}.

(** U+00C5 replaced by its canonical decomposition U+0041 U+030A. *)
Definition decompose (s : jsstring) : jsstring :=
  flat_map (fun c => if c =? 197 then [65; 778] else [c]) s.

Definition canonical : Runtime := {|
  toUpperCase := upperAscii;
  localeCompare := fun a b => compareUnits (decompose a) (decompose b);
  StringToNumber := decimalToNumber;
  NumberToString := integerToString
|}.

(** ** Sample feeds *)

(** [{"BTC": 50000, "ETH": 3000}] *)
Definition feedBtcEth : value :=
  VObj [ (js "BTC", VNum 50000); (js "ETH", VNum 3000) ].

Definition tokensBtcEth : list Token.t :=
  [ Token.mk (js "BTC") 50000
      (js "https://raw.githubusercontent.com/Switcheo/token-icons/main/tokens/BTC.svg");
    Token.mk (js "ETH") 3000
      (js "https://raw.githubusercontent.com/Switcheo/token-icons/main/tokens/ETH.svg") ].

(** [[{"currency":"usdt","price":"1.00"},{"currency":"USDT","price":2}]] *)
Definition feedUsdt : value :=
  VArr [ VObj [ (js "currency", VStr (js "usdt")); (js "price", VStr (js "1.00")) ];
         VObj [ (js "currency", VStr (js "USDT")); (js "price", VNum 2) ] ].

Definition tokenUsdt : Token.t :=
  Token.mk (js "USDT") 2
    (js "https://raw.githubusercontent.com/Switcheo/token-icons/main/tokens/USDT.svg").




(** [{"btc": 1}] and [{"BTC": 1}] *)
Definition feedLower : value := VObj [ (js "btc", VNum 1) ].
Definition feedUpper : value := VObj [ (js "BTC", VNum 1) ].

Definition tokenLower : Token.t :=
  Token.mk (js "BTC") 1
    (js "https://raw.githubusercontent.com/Switcheo/token-icons/main/tokens/btc.svg").

Definition tokenUpper : Token.t :=
  Token.mk (js "BTC") 1
    (js "https://raw.githubusercontent.com/Switcheo/token-icons/main/tokens/BTC.svg").

(** [{"Å": 1, "Å": 2}]: two spellings of the same letter. *)
Definition feedRing : value :=
  VObj [ ([197], VNum 1); ([65; 778], VNum 2) ].

(** [[null]] *)
Definition feedNull : value := VArr [VNull].

(** [{"\ud800": 1}]: a key that is an unpaired surrogate. *)
Definition feedSurrogate : value := VObj [ ([55296], VNum 1) ].

(** [[{"currency": {"toString": 1}, "price": 1}]] *)
Definition feedObjectSymbol : value :=
  VArr [ VObj [ (js "currency", VObj [ (js "toString", VNum 1) ]);
                (js "price", VNum 1) ] ].

(** ** Sample selections *)

(** [{"A": 8.98846567431158e307, "B": 1}]: the price of [A] is [2^1023]. *)
Definition feedHuge : value :=
  VObj [ (js "A", VNum 0x1p+1023); (js "B", VNum 1) ].

Definition tokenHuge : Token.t :=
  Token.mk (js "A") 0x1p+1023
    (js "https://raw.githubusercontent.com/Switcheo/token-icons/main/tokens/A.svg").

Definition tokenOne : Token.t :=
  Token.mk (js "B") 1
    (js "https://raw.githubusercontent.com/Switcheo/token-icons/main/tokens/B.svg").

Definition tokenBtc : Token.t :=
  Token.mk (js "BTC") 50000
    (js "https://raw.githubusercontent.com/Switcheo/token-icons/main/tokens/BTC.svg").

Definition tokenEth : Token.t :=
  Token.mk (js "ETH") 3000
    (js "https://raw.githubusercontent.com/Switcheo/token-icons/main/tokens/ETH.svg").

(** Nothing selected and nothing typed. *)
Definition stateEmpty : Spec.State := {|
  Spec.tokenIn := None;
  Spec.tokenOut := None;
  Spec.amountInText := [];
  Spec.amountIn := nan;
  Spec.balance := 0%float;
  Spec.amountOut := nan
|}.

End Sample.

(* ================================================================== *)
(** * TokenSearch: [filteredTokens] *)

Module Search.

Import Str JS.
Local Open Scope Z_scope.

(** [s.startsWith(q)] *)
Fixpoint startsWith (s q : jsstring) : bool :=
  match q, s with
  | [], _ => true
  | _ :: _, [] => false
  | c :: q', d :: s' => (c =? d) && startsWith s' q'
  end.

(** [s.includes(q)]: [q] occurs in [s] at some position. *)
Fixpoint includes (s q : jsstring) : bool :=
  startsWith s q
  || match s with
     | [] => false
     | _ :: s' => includes s' q
     end.

(** The memo [filteredTokens], from the token list (or [null]) and the
    debounced search text. *)
Definition filteredTokens (rt : Runtime) (tokens : option (list Token.t))
  (debouncedSearch : jsstring) : list Token.t :=
  let list := match tokens with Some l => l | None => [] end in
  let q := toUpperCase rt (trim debouncedSearch) in
  if isEmpty q then list
  else filter (fun t => includes (Token.symbol t) q) list.

End Search.

(* ================================================================== *)
(** * The session: loading the feed, the toasts *)

Module Session.

Import Str JS.




(** [type Toast = { id: string; title: string; description?: string }] *)
Record Toast : Type := {
  id : jsstring;
  title : jsstring;
  description : option jsstring
}.

(** The update of [addToast]: [[{ id, title, description }, ...p].slice(0, 3)] *)
Definition addToast (t : Toast) (p : list Toast) : list Toast :=
  firstn 3 (t :: p).

(** The update of the timer and of [onDismiss]: [p.filter((t) => t.id !== id)] *)
Definition dismiss (i : jsstring) (p : list Toast) : list Toast :=
  filter (fun t => negb (eqb (id t) i)) p.

(** What happens to the stack of toasts. *)
Inductive toastEvent : Type :=
| Add (t : Toast)
| Dismiss (i : jsstring).

Definition toastStep (p : list Toast) (e : toastEvent) : list Toast :=
  match e with
  | Add t => addToast t p
  | Dismiss i => dismiss i p
  end.

(** The stack after a run of events, from the empty stack. *)
Definition toastsAfter (events : list toastEvent) : list Toast :=
  fold_left toastStep events [].

End Session.

(* ================================================================== *)
(** * The actions of the form: Max, switching sides, the fee shown *)

Module Actions.

Import Str JS.
Local Open Scope float_scope.

(** [Math.floor(x)]: [NaN], the infinities and the zeros are returned as
    they are, and so is a number whose exponent is not negative (it is
    an integer); otherwise the mantissa is shifted, towards minus
    infinity.  The integer found is below [2^53]: its conversion is
    exact. *)
Definition Math_floor (x : float) : float :=
  match Prim2SF x with
  | S754_finite s m e =>
      if (0 <=? e)%Z then x
      else
        let q := Z.shiftr (Z.pos m) (- e) in
        if s then
          (if (Z.shiftl q (- e) =? Z.pos m)%Z then - Num.of_Z q
           else - Num.of_Z (q + 1))
        else Num.of_Z q
  | _ => x
  end.

(** [Math.floor((balanceIn - 0.000001) * 1e6) / 1e6] *)
Definition maxAmount (balanceIn : float) : float :=
  Math_floor ((balanceIn - 0.000001) * 1000000) / 1000000.

(** [onMax]: the amount text it sets, or the text left as it is when no
    input token is selected. *)
Definition onMax (rt : Runtime) (tokenIn : option Token.t) (balanceIn : float)
  (amountInRaw : jsstring) : jsstring :=
  match tokenIn with
  | None => amountInRaw
  | Some _ => NumberToString rt (maxAmount balanceIn)
  end.

(** [onSwapSides]: the selection after it. *)
Definition onSwapSides (tokenIn tokenOut : option Token.t)
  : option Token.t * option Token.t :=
  (tokenOut, tokenIn).

(** The network fee shown for the input token:
    [Math.max(0.001, tokenIn.price / 50000)]. *)
Definition networkFee (tokenIn : Token.t) : float :=
  Num.Math_max 0.001 (Token.price tokenIn / 50000).

End Actions.

(* ================================================================== *)
(** * Checks run over every balance *)

Module Checks.

Local Open Scope float_scope.

(** The balance derived from the hash value [k] is at most 94.99, and
    the amount that Max computes from it is a finite number above zero
    and below the balance. *)
Definition max_ok (k : Z) : bool :=
  let b := Balance.balance_of_hash k in
  let x := Actions.maxAmount b in
  (b <=? Num.of_Z 9499 / Num.of_Z 100)
  && Num.isFinite x && (0 <? x) && (x <? b).

End Checks.

(* ================================================================== *)
(** * Well-formed strings *)

Module Units.

Import Str JS.
Local Open Scope Z_scope.

(** A code unit is a 16-bit value. *)
Definition isUnit (c : Z) : bool := (0 <=? c) && (c <? 65536).

(** A surrogate code unit, leading or trailing. *)
Definition isSurrogate (c : Z) : bool := isLead c || isTrail c.

End Units.

(* ================================================================== *)
(** * Properties of numbers *)

Module NumFacts.

Import Num.
Local Open Scope float_scope.

Lemma is_nan_sf (x : float) :
  PrimFloat.is_nan x = match sf x with S754_nan => true | _ => false end.
Proof.
  unfold PrimFloat.is_nan, sf. rewrite FloatAxioms.eqb_spec.
  unfold SFeqb. destruct (Prim2SF x) as [s|s| |s m e]; simpl; try reflexivity.
  - destruct s; reflexivity.
  - destruct s; rewrite Z.compare_refl, Pos.compare_cont_refl; reflexivity.
Qed.

Lemma is_nan_eq (x : float) : PrimFloat.is_nan x = true <-> x = nan.
Proof.
  split.
  - intros H. rewrite is_nan_sf in H. apply Prim2SF_inj.
    unfold sf in H. destruct (Prim2SF x); try discriminate. reflexivity.
  - intros ->. reflexivity.
Qed.

Lemma is_infinity_sf (x : float) :
  PrimFloat.is_infinity x = match sf x with S754_infinity _ => true | _ => false end.
Proof.
  unfold PrimFloat.is_infinity, sf. rewrite FloatAxioms.eqb_spec, abs_spec.
  replace (Prim2SF infinity) with (S754_infinity false) by reflexivity.
  destruct (Prim2SF x) as [s|s| |s m e]; reflexivity.
Qed.

Lemma isFinite_sf (x : float) :
  isFinite x = match sf x with S754_zero _ | S754_finite _ _ _ => true | _ => false end.
Proof.
  unfold isFinite, PrimFloat.is_finite. rewrite is_nan_sf, is_infinity_sf.
  destruct (sf x); reflexivity.
Qed.

Lemma isFinite_not_nan (x : float) : isFinite x = true -> PrimFloat.is_nan x = false.
Proof.
  rewrite isFinite_sf, is_nan_sf. destruct (sf x); congruence.
Qed.

Lemma nan_not_finite : isFinite nan = false.
Proof. reflexivity. Qed.

(** ** Comparison of numbers that are not [NaN] *)

Lemma SFcompare_antisym (a b : spec_float) (c : comparison) :
  SFcompare a b = Some c -> SFcompare b a = Some (CompOpp c).
Proof.
  destruct a as [sa|sa| |sa ma ea], b as [sb|sb| |sb mb eb]; simpl;
    try discriminate;
    try (destruct sa; intros [= <-]; reflexivity);
    try (destruct sb; intros [= <-]; reflexivity);
    try (intros [= <-]; reflexivity).
  - destruct sa, sb; intros [= <-]; reflexivity.
  - intros [= <-]. f_equal.
    assert (Hm : Pos.compare_cont Eq mb ma = CompOpp (Pos.compare_cont Eq ma mb))
      by (rewrite Pos.compare_cont_antisym; reflexivity).
    rewrite (Z.compare_antisym ea eb), Hm.
    destruct sa, sb; simpl; try reflexivity;
      destruct (ea ?= eb)%Z; simpl; try reflexivity;
      destruct (Pos.compare_cont Eq ma mb); reflexivity.
Qed.

Lemma SFcompare_defined (a b : spec_float) :
  a <> S754_nan -> b <> S754_nan -> exists c, SFcompare a b = Some c.
Proof.
  destruct a as [sa|sa| |sa ma ea], b as [sb|sb| |sb mb eb]; simpl;
    intros Ha Hb; try congruence; eexists; reflexivity.
Qed.

(** For numbers that are not [NaN], [b < a] is the negation of [a <= b]. *)
Lemma ltb_negb_leb (a b : float) :
  PrimFloat.is_nan a = false -> PrimFloat.is_nan b = false ->
  (b <? a) = negb (a <=? b).
Proof.
  rewrite !is_nan_sf, FloatAxioms.ltb_spec, FloatAxioms.leb_spec. unfold sf, SFltb, SFleb.
  intros Ha Hb.
  destruct (@SFcompare_defined (Prim2SF a) (Prim2SF b)) as [c Hc].
  - intros E; rewrite E in Ha; discriminate.
  - intros E; rewrite E in Hb; discriminate.
  - rewrite Hc, (SFcompare_antisym _ _ _ Hc). destruct c; reflexivity.
Qed.

(** ** Rounding never produces [NaN] from a non-negative mantissa *)

Lemma shr_1_nonneg (r : shr_record) : shr_nonneg r -> shr_nonneg (shr_1 r).
Proof.
  unfold shr_nonneg. destruct r as [m r s]; simpl.
  destruct m as [|p|p]; simpl; intros H; try lia.
  - destruct p; simpl; lia.
Qed.

Lemma iter_shr_1_nonneg (p : positive) (r : shr_record) :
  shr_nonneg r -> shr_nonneg (iter_pos shr_1 p r).
Proof.
  revert r. induction p as [p IH|p IH|]; simpl; intros r H.
  - apply IH, IH, shr_1_nonneg, H.
  - apply IH, IH, H.
  - apply shr_1_nonneg, H.
Qed.

Lemma shr_fexp_nonneg (m e : Z) (l : location) :
  (0 <= m)%Z -> shr_nonneg (fst (shr_fexp prec emax m e l)).
Proof.
  intros Hm. unfold shr_fexp, shr.
  assert (H0 : shr_nonneg (shr_record_of_loc m l)).
  { unfold shr_nonneg. destruct l as [|[| |]]; simpl; exact Hm. }
  destruct (fexp prec emax (Zdigits2 m + e) - e)%Z; simpl; auto.
  apply iter_shr_1_nonneg, H0.
Qed.

Lemma round_nearest_even_nonneg (m : Z) (l : location) :
  (0 <= m)%Z -> (0 <= round_nearest_even m l)%Z.
Proof.
  intros Hm. destruct l as [|[| |]]; simpl; try lia.
  destruct (Z.even m); lia.
Qed.

Lemma binary_round_aux_not_nan (sx : bool) (mx ex : Z) (lx : location) :
  (0 <= mx)%Z -> binary_round_aux prec emax sx mx ex lx <> S754_nan.
Proof.
  intros Hm. unfold binary_round_aux.
  pose proof (@shr_fexp_nonneg mx ex lx Hm) as H1.
  destruct (shr_fexp prec emax mx ex lx) as [mrs' e']. simpl in H1.
  pose proof (@shr_fexp_nonneg
                (round_nearest_even (shr_m mrs') (loc_of_shr_record mrs')) e' loc_Exact
                (round_nearest_even_nonneg _ _ H1)) as H2.
  destruct (shr_fexp prec emax _ e' loc_Exact) as [mrs'' e'']. simpl in H2.
  unfold shr_nonneg in H2.
  destruct (shr_m mrs'') as [|p|p]; try lia; try discriminate.
  destruct (e'' <=? emax - prec)%Z; discriminate.
Qed.

(** The product of two finite numbers is never [NaN] (it may overflow to
    an infinity). *)
Lemma mul_finite_not_nan (x y : float) :
  isFinite x = true -> isFinite y = true -> PrimFloat.is_nan (x * y) = false.
Proof.
  rewrite !isFinite_sf, is_nan_sf. unfold sf. rewrite FloatAxioms.mul_spec.
  unfold SF64mul.
  destruct (Prim2SF x) as [sx|sx| |sx mx ex], (Prim2SF y) as [sy|sy| |sy my ey];
    simpl; try discriminate; try reflexivity.
  intros _ _.
  pose proof (@binary_round_aux_not_nan (xorb sx sy) (Zpos (mx * my)) (ex + ey)
                loc_Exact ltac:(lia)) as H.
  destruct (binary_round_aux _ _ _ _ _ _); congruence.
Qed.

(** A finite number divided by a finite number that is not zero is never
    [NaN]. *)
Lemma div_finite_not_nan (x y : float) :
  isFinite x = true -> isFinite y = true -> PrimFloat.is_zero y = false ->
  PrimFloat.is_nan (x / y) = false.
Proof.
  rewrite !isFinite_sf, is_nan_sf. unfold PrimFloat.is_zero, sf.
  rewrite FloatAxioms.eqb_spec, FloatAxioms.div_spec.
  replace (Prim2SF PrimFloat.zero) with (S754_zero false) by reflexivity.
  unfold SF64div.
  destruct (Prim2SF x) as [sx|sx| |sx mx ex], (Prim2SF y) as [sy|sy| |sy my ey];
    simpl; try discriminate; try reflexivity.
  intros _ _ _.
  unfold SFdiv_core_binary.
  set (m' := match _ with Z0 => _ | Zpos _ => _ | Zneg _ => _ end).
  assert (Hm' : (0 <= m')%Z).
  { subst m'. destruct (_ - _ - _)%Z; try lia.
    apply Z.shiftl_nonneg. lia. }
  pose proof (Z_div_mod m' (Zpos my) ltac:(lia)) as Hd.
  destruct (Z.div_eucl m' (Zpos my)) as [q r].
  assert (Hq : (0 <= q)%Z) by nia.
  pose proof (@binary_round_aux_not_nan (xorb sx sy) q
      (Z.min (fexp prec emax (Zdigits2 (Zpos mx) + ex - (Zdigits2 (Zpos my) + ey))) (ex - ey))
      (new_location (Zpos my) r) Hq) as H.
  match goal with |- match ?t with _ => _ end = _ => destruct t end; congruence.
Qed.

(** A number above zero is not zero. *)
Lemma ltb_zero_not_zero (y : float) :
  (0 <? y) = true -> PrimFloat.is_zero y = false.
Proof.
  unfold PrimFloat.is_zero.
  rewrite FloatAxioms.ltb_spec, FloatAxioms.eqb_spec. unfold SFltb, SFeqb.
  destruct (SFcompare (Prim2SF 0) (Prim2SF y)) as [c|] eqn:E; [|discriminate].
  replace (Prim2SF PrimFloat.zero) with (Prim2SF 0) by reflexivity.
  rewrite (SFcompare_antisym _ _ _ E). destruct c; simpl; congruence.
Qed.

(** "Not finite, or at most zero" is the negation of "finite and above
    zero". *)
Lemma not_positive_dual (x : float) :
  negb (isFinite x) || (x <=? 0) = negb (isFinite x && (0 <? x)).
Proof.
  destruct (isFinite x) eqn:E; simpl; [|reflexivity].
  rewrite (ltb_negb_leb x 0 (isFinite_not_nan _ E) eq_refl).
  rewrite negb_involutive. reflexivity.
Qed.

End NumFacts.

(* ================================================================== *)
(** * Properties of strings *)

Module StrFacts.

Import Str.
Local Open Scope Z_scope.

Lemma eqb_eq (a b : jsstring) : eqb a b = true <-> a = b.
Proof.
  revert b. induction a as [|x a IH]; intros [|y b]; simpl; split;
    try congruence; try reflexivity.
  - intros H. apply andb_true_iff in H. destruct H as [H1 H2].
    apply Z.eqb_eq in H1. apply IH in H2. congruence.
  - intros [= -> ->]. rewrite Z.eqb_refl. simpl. apply IH. reflexivity.
Qed.

Lemma eqb_refl (a : jsstring) : eqb a a = true.
Proof. apply eqb_eq. reflexivity. Qed.

Lemma eqb_neq (a b : jsstring) : eqb a b = false <-> a <> b.
Proof.
  split.
  - intros H E. apply eqb_eq in E. congruence.
  - intros H. destruct (eqb a b) eqn:E; [apply eqb_eq in E; contradiction | reflexivity].
Qed.

Lemma removeCommas_filter (s : jsstring) :
  removeCommas s = filter (fun c => negb (c =? 44)) s.
Proof.
  induction s as [|c r IH]; simpl; [reflexivity|].
  destruct (c =? 44); simpl; congruence.
Qed.

Lemma removeCommas_no_comma (s : jsstring) : ~ In 44 (removeCommas s).
Proof.
  rewrite removeCommas_filter. intros H. apply filter_In in H.
  destruct H as [_ H]. rewrite Z.eqb_refl in H. discriminate.
Qed.

(** What [trimStart] leaves does not begin with white space. *)
Lemma trimStart_head (s : jsstring) :
  match trimStart s with [] => True | c :: _ => isWhiteSpace c = false end.
Proof.
  induction s as [|c r IH]; simpl; [exact I|].
  destruct (isWhiteSpace c) eqn:E; [exact IH | exact E].
Qed.

Lemma trimStart_fixed (s : jsstring) :
  match s with [] => True | c :: _ => isWhiteSpace c = false end ->
  trimStart s = s.
Proof. destruct s as [|c r]; simpl; [reflexivity|]. intros ->. reflexivity. Qed.

Lemma trimStart_idem (s : jsstring) : trimStart (trimStart s) = trimStart s.
Proof. apply trimStart_fixed, trimStart_head. Qed.

(** [trimStart] drops a prefix made of white space only. *)
Lemma trimStart_suffix (s : jsstring) :
  exists p, s = p ++ trimStart s /\ forallb isWhiteSpace p = true.
Proof.
  induction s as [|c r [p [Hp Hw]]]; simpl.
  - exists []. split; reflexivity.
  - destruct (isWhiteSpace c) eqn:E.
    + exists (c :: p). simpl. rewrite E, Hw. split; [congruence | reflexivity].
    + exists []. split; reflexivity.
Qed.

Lemma trimEnd_idem (s : jsstring) : trimEnd (trimEnd s) = trimEnd s.
Proof. unfold trimEnd. rewrite rev_involutive, trimStart_idem. reflexivity. Qed.

(** Trimming the end of a string that does not begin with white space
    leaves a string that does not begin with white space. *)
Lemma trimEnd_keeps_head (s : jsstring) :
  trimStart s = s -> trimStart (trimEnd s) = trimEnd s.
Proof.
  intros Hs. unfold trimEnd.
  destruct (trimStart_suffix (rev s)) as [p [Hp Hw]].
  remember (trimStart (rev s)) as t eqn:Ht.
  assert (Hrev : s = rev t ++ rev p).
  { rewrite <- rev_app_distr, <- Hp, rev_involutive. reflexivity. }
  destruct (rev t) as [|c u] eqn:Eu; [reflexivity|].
  apply trimStart_fixed.
  rewrite Hrev in Hs. simpl in Hs.
  destruct (isWhiteSpace c) eqn:Ec; [|reflexivity].
  exfalso.
  pose proof (trimStart_suffix (u ++ rev p)) as [q [Hq _]].
  rewrite Hs in Hq. apply (f_equal (@length Z)) in Hq.
  rewrite !length_app in Hq. simpl in Hq. rewrite !length_app in Hq. lia.
Qed.

Lemma trim_idem (s : jsstring) : trim (trim s) = trim s.
Proof.
  unfold trim.
  rewrite (trimEnd_keeps_head (trimStart s) (trimStart_idem s)).
  apply trimEnd_idem.
Qed.

End StrFacts.

(* ================================================================== *)
(** * Properties of the balance simulator *)

Module BalanceFacts.

Import Str Balance.
Local Open Scope Z_scope.

Lemma loop_fold (pre suf : jsstring) (x : Z) :
  loop (pre ++ suf) (List.length suf) (List.length pre) x
  = fold_left (fun x c => (x * 31 + c) mod 2 ^ 32) suf x.
Proof.
  revert pre x. induction suf as [|c suf IH]; intros pre x; simpl; [reflexivity|].
  unfold step at 1, charCodeAt, toUint32.
  rewrite app_nth2 by lia. rewrite Nat.sub_diag. simpl nth.
  replace (pre ++ c :: suf) with ((pre ++ [c]) ++ suf)
    by (rewrite <- app_assoc; reflexivity).
  replace (S (List.length pre)) with (List.length (pre ++ [c]))
    by (rewrite length_app; simpl; lia).
  apply IH.
Qed.

Lemma hash_is_fold (symbol : jsstring) : hash symbol = hash_fold symbol.
Proof. exact (loop_fold [] symbol 0). Qed.

(** ** Every possible base balance, checked one by one *)

Lemma residues_ok : forallb balance_ok residues = true.
Proof. vm_compute. reflexivity. Qed.

Lemma balance_of_hash_ok (h : Z) : balance_ok h = true.
Proof.
  assert (Hk : balance_ok (h mod 9500) = true).
  { pose proof residues_ok as H. rewrite forallb_forall in H. apply H.
    unfold residues. apply in_map_iff. exists (Z.to_nat (h mod 9500)).
    pose proof (Z.mod_pos_bound h 9500 ltac:(lia)) as Hb.
    split; [lia|]. apply in_seq. lia. }
  unfold balance_ok, balance_of_hash in *.
  rewrite Z.mod_mod in Hk by lia. exact Hk.
Qed.

Lemma pseudoBalance_fold (s : jsstring) :
  pseudoBalance s = balance_of_hash (hash_fold s).
Proof. unfold pseudoBalance, balance_of_hash. rewrite hash_is_fold. reflexivity. Qed.

Lemma pseudoBalance_finite (s : jsstring) : Num.isFinite (pseudoBalance s) = true.
Proof.
  rewrite pseudoBalance_fold.
  pose proof (balance_of_hash_ok (hash_fold s)) as H.
  unfold balance_ok in H. apply andb_true_iff in H. tauto.
Qed.

(** C9. [pseudoBalance] is a function of the symbol alone (it reads no
    state and no source of randomness, so every call on the same symbol
    returns the same value), and that value is: the code units folded
    through the base-31 multiply-and-add hash kept in 32 bits, reduced
    modulo 9500, divided by 100 and raised to at least 1.  The result is
    a finite number, never below 1. *)
Theorem pseudoBalance_spec (s : jsstring) :
  pseudoBalance s = balance_of_hash (hash_fold s)
  /\ (Num.of_Z 1 <=? pseudoBalance s)%float = true
  /\ Num.isFinite (pseudoBalance s) = true.
Proof.
  pose proof (pseudoBalance_fold s) as E.
  pose proof (balance_of_hash_ok (hash_fold s)) as H.
  unfold balance_ok in H. apply andb_true_iff in H.
  rewrite E. tauto.
Qed.

End BalanceFacts.

(* ================================================================== *)
(** * Properties of the built-ins *)

Module JSFacts.

Import Str StrFacts JS.
Local Open Scope Z_scope.

Lemma bind_Ok {A B : Type} (r : result A) (k : A -> result B) (b : B) :
  bind r k = Ok b -> exists a, r = Ok a /\ k a = Ok b.
Proof. destruct r as [a|e]; simpl; [eauto | discriminate]. Qed.

(** Undo the binds of a hypothesis that says an evaluation returned. *)
Ltac inv_bind H :=
  let a := fresh "a" in
  let Ha := fresh "Ha" in
  apply bind_Ok in H; destruct H as [a [Ha H]].

Lemma unreserved_urlChar (c : Z) : unreserved c = true -> Spec.urlChar c = true.
Proof. unfold Spec.urlChar. intros ->. reflexivity. Qed.

Lemma hexDigit_unreserved (n : Z) : 0 <= n < 16 -> unreserved (hexDigit n) = true.
Proof.
  intros H. unfold hexDigit, unreserved.
  destruct (n <? 10) eqn:E.
  - apply Z.ltb_lt in E.
    replace ((48 <=? 48 + n) && (48 + n <=? 57)) with true; [reflexivity|].
    symmetry. apply andb_true_iff. split; apply Z.leb_le; lia.
  - apply Z.ltb_ge in E.
    replace ((65 <=? 55 + n) && (55 + n <=? 90)) with true;
      [rewrite orb_true_r; reflexivity|].
    symmetry. apply andb_true_iff. split; apply Z.leb_le; lia.
Qed.

Lemma pct_urlChar (b : Z) : forallb Spec.urlChar (pct b) = true.
Proof.
  unfold pct. simpl.
  rewrite (unreserved_urlChar _ (hexDigit_unreserved _ (Z.mod_pos_bound (b / 16) 16 eq_refl))).
  rewrite (unreserved_urlChar _ (hexDigit_unreserved _ (Z.mod_pos_bound b 16 eq_refl))).
  reflexivity.
Qed.

Lemma escape_urlChar (cp : Z) : forallb Spec.urlChar (escape cp) = true.
Proof.
  unfold escape. induction (utf8 cp) as [|b l IH]; [reflexivity|].
  change (flat_map pct (b :: l)) with (pct b ++ flat_map pct l).
  rewrite forallb_app, IH, andb_true_r.
  exact (pct_urlChar b).
Qed.

(** An induction principle that follows the recursion of
    [encodeURIComponent]: one or two code units at a time. *)
Lemma units_ind (P : jsstring -> Prop) :
  P [] ->
  (forall c rest, P rest -> (forall d rest', rest = d :: rest' -> P rest') -> P (c :: rest)) ->
  forall s, P s.
Proof.
  intros Hnil Hcons.
  assert (H : forall s, P s /\ (forall d rest', s = d :: rest' -> P rest')).
  { induction s as [|c rest [IH1 IH2]].
    - split; [exact Hnil | discriminate].
    - split; [apply Hcons; assumption | intros d rest' [= _ <-]; exact IH1]. }
  intros s. apply H.
Qed.

(** What [encodeURIComponent] returns is made of unreserved characters
    and escapes. *)
Lemma encodeURIComponent_urlChar (s r : jsstring) :
  encodeURIComponent s = Ok r -> forallb Spec.urlChar r = true.
Proof.
  revert r. induction s as [|c rest IH1 IH2] using units_ind; intros r H.
  - cbn [encodeURIComponent] in H. assert (E : r = []) by congruence.
    rewrite E. reflexivity.
  - cbn [encodeURIComponent] in H. destruct (unreserved c) eqn:Eu.
    + inv_bind H. assert (E : r = c :: a) by congruence.
      rewrite E. cbn [forallb].
      rewrite (unreserved_urlChar _ Eu), (IH1 _ Ha). reflexivity.
    + destruct (isLead c).
      * destruct rest as [|d rest']; [discriminate|].
        destruct (isTrail d); [|discriminate].
        inv_bind H.
        assert (E : r = escape (65536 + (c - 55296) * 1024 + (d - 56320)) ++ a)
          by congruence.
        rewrite E, forallb_app, escape_urlChar, (IH2 d rest' eq_refl _ Ha).
        reflexivity.
      * destruct (isTrail c); [discriminate|].
        inv_bind H. assert (E : r = escape c ++ a) by congruence.
        rewrite E, forallb_app, escape_urlChar, (IH1 _ Ha). reflexivity.
Qed.

End JSFacts.

(* ================================================================== *)
(** * Properties of the price normalizer *)

Module NormalizerFacts.

Import Str StrFacts JS JSFacts Normalizer.
Local Open Scope Z_scope.

(** ** The [Map] *)

Section MapFacts.

Context {V : Type}.
Implicit Types (m : list (jsstring * V)) (k : jsstring) (v : V).

Lemma mapGet_mapSet_same m k v : mapGet (mapSet m k v) k = Some v.
Proof.
  induction m as [|[k' v'] m IH]; simpl.
  - rewrite eqb_refl. reflexivity.
  - destruct (eqb k k') eqn:E; simpl; rewrite E; [reflexivity | exact IH].
Qed.

Lemma mapGet_mapSet_other m k v k' :
  k' <> k -> mapGet (mapSet m k v) k' = mapGet m k'.
Proof.
  intros Hne. induction m as [|[k0 v0] m IH]; simpl.
  - apply eqb_neq in Hne. rewrite Hne. reflexivity.
  - destruct (eqb k k0) eqn:E; simpl.
    + apply eqb_eq in E. subst k0. apply eqb_neq in Hne. rewrite Hne. reflexivity.
    + rewrite IH. reflexivity.
Qed.

Lemma mapSet_keys_in m k v k' :
  In k' (map fst (mapSet m k v)) <-> k' = k \/ In k' (map fst m).
Proof.
  induction m as [|[k0 v0] m IH]; simpl.
  - intuition congruence.
  - destruct (eqb k k0) eqn:E; simpl.
    + apply eqb_eq in E. subst k0. intuition congruence.
    + rewrite IH. intuition congruence.
Qed.

Lemma mapSet_keys_NoDup m k v :
  NoDup (map fst m) -> NoDup (map fst (mapSet m k v)).
Proof.
  induction m as [|[k0 v0] m IH]; simpl; intros H.
  - constructor; [intros [] | constructor].
  - inversion H as [|? ? Hnin Hnd]; subst.
    destruct (eqb k k0) eqn:E; simpl.
    + constructor; assumption.
    + constructor; [|apply IH, Hnd].
      rewrite mapSet_keys_in. intros [->|Hin]; [|contradiction].
      rewrite eqb_refl in E. discriminate.
Qed.

(** In a map, an entry is what [get] finds under its key. *)
Lemma mapGet_In m k v :
  NoDup (map fst m) -> (In (k, v) m <-> mapGet m k = Some v).
Proof.
  induction m as [|[k0 v0] m IH]; simpl; intros H.
  - split; [intros [] | discriminate].
  - inversion H as [|? ? Hnin Hnd]; subst.
    destruct (eqb k k0) eqn:E.
    + apply eqb_eq in E. subst k0. split.
      * intros [[= ->]|Hin]; [reflexivity|].
        exfalso. apply Hnin. apply in_map_iff. exists (k, v). auto.
      * intros [= ->]. left. reflexivity.
    + apply eqb_neq in E. rewrite <- (IH Hnd). split.
      * intros [[= -> ->]|Hin]; [congruence | exact Hin].
      * intros Hin. right. exact Hin.
Qed.

(** Setting a key that the map does not hold appends the entry. *)
Lemma mapSet_fresh m k v :
  ~ In k (map fst m) -> mapSet m k v = m ++ [(k, v)].
Proof.
  induction m as [|[k0 v0] m IH]; simpl; intros H; [reflexivity|].
  destruct (eqb k k0) eqn:E.
  - apply eqb_eq in E. subst k0. exfalso. apply H. left. reflexivity.
  - rewrite IH; [reflexivity|]. intros Hin. apply H. right. exact Hin.
Qed.

End MapFacts.

(** ** The stable sort *)

Section SortFacts.

Context {A : Type}.
Variable cmp : A -> A -> comparison.

Local Abbreviation le := (notAfter cmp).

Hypothesis cmp_antisym : forall a b, cmp b a = CompOpp (cmp a b).
Hypothesis cmp_trans : forall a b c, le a b -> le b c -> le a c.

Lemma insert_perm (x : A) (l : list A) : Permutation (insert cmp x l) (x :: l).
Proof.
  induction l as [|y l IH]; simpl; [apply Permutation_refl|].
  destruct (cmp x y); try apply Permutation_refl.
  eapply Permutation_trans; [apply perm_skip, IH | apply perm_swap].
Qed.

Lemma sort_perm (l : list A) : Permutation (sort cmp l) l.
Proof.
  induction l as [|x l IH]; simpl; [apply Permutation_refl|].
  eapply Permutation_trans; [apply insert_perm | apply perm_skip, IH].
Qed.

Lemma gt_le (x y : A) : cmp x y = Gt -> le y x.
Proof. intros H. unfold notAfter. rewrite cmp_antisym, H. discriminate. Qed.

Lemma insert_sorted (x : A) (l : list A) :
  StronglySorted le l -> StronglySorted le (insert cmp x l).
Proof.
  induction l as [|y l IH]; simpl; intros H.
  - constructor; [constructor | constructor].
  - inversion H as [|? ? Hl Hy]; subst.
    assert (Hxl : le x y -> Forall (le x) (y :: l)).
    { intros Hxy. constructor; [exact Hxy|].
      eapply Forall_impl; [|exact Hy]. intros z Hz. eapply cmp_trans; eassumption. }
    destruct (cmp x y) eqn:E.
    + constructor; [exact H | apply Hxl; unfold notAfter; congruence].
    + constructor; [exact H | apply Hxl; unfold notAfter; congruence].
    + constructor; [apply IH, Hl|].
      apply (Permutation_Forall (Permutation_sym (insert_perm x l))).
      constructor; [apply gt_le, E | exact Hy].
Qed.

Lemma sort_sorted (l : list A) : StronglySorted le (sort cmp l).
Proof.
  induction l as [|x l IH]; simpl; [constructor | apply insert_sorted, IH].
Qed.

(** Sorting a list that is in order leaves it as it is. *)
Lemma sort_sorted_id (l : list A) : StronglySorted le l -> sort cmp l = l.
Proof.
  induction l as [|x l IH]; simpl; intros H; [reflexivity|].
  inversion H as [|? ? Hl Hx]; subst.
  rewrite (IH Hl). destruct l as [|y l]; [reflexivity|]. simpl.
  inversion Hx as [|? ? Hxy _]; subst. unfold notAfter in Hxy.
  destruct (cmp x y); [reflexivity | reflexivity | congruence].
Qed.

End SortFacts.

(** ** The loops: what [push] appends *)

Lemma push_cases (rt : Runtime) (out : list Token.t) (sr pr : value)
      (out' : list Token.t) :
  push rt out sr pr = Ok out' ->
  out' = out
  \/ exists t0, out' = out ++ [t0]
                /\ Spec.Yields rt (sr, pr) t0
                /\ Spec.rejects rt (sr, pr) = false.
Proof.
  unfold push. intros H. inv_bind H.
  destruct (coercePrice rt pr) as [| | |p| | |] eqn:Ep;
    try (injection H as <-; left; reflexivity).
  destruct (isEmpty (trim a) || negb (Num.isFinite p) || (p <=? 0)%float) eqn:Ec.
  - injection H as <-. left. reflexivity.
  - inv_bind H. injection H as <-. right.
    exists (Token.mk (trim a) p a0). split; [reflexivity|]. split.
    + exists a. simpl. auto.
    + unfold Spec.rejects. simpl. rewrite Ha, Ep.
      apply orb_false_iff in Ec. destruct Ec as [Ec1 Ec2].
      apply orb_false_iff in Ec1. destruct Ec1 as [Ec0 Ec1].
      rewrite Ec0, Ec1, Ec2. reflexivity.
Qed.

Lemma pushAll_spec {A : Type} (rt : Runtime) (cand : A -> result (value * value))
      (xs : list A) (out out' : list Token.t) :
  pushAll rt cand xs out = Ok out' ->
  exists added,
    out' = out ++ added
    /\ Forall (fun t0 => exists c, In (Ok c) (map cand xs)
                                   /\ Spec.Yields rt c t0
                                   /\ Spec.rejects rt c = false) added.
Proof.
  revert out out'. induction xs as [|x xs IH]; simpl; intros out out' H.
  - injection H as <-. exists []. rewrite app_nil_r. split; constructor.
  - inv_bind H. destruct a as [sr pr]. inv_bind H. simpl in Ha0.
    destruct (IH _ _ H) as [added [-> Hadded]].
    assert (Hweak : Forall (fun t0 => exists c,
                (cand x = Ok c \/ In (Ok c) (map cand xs))
                /\ Spec.Yields rt c t0 /\ Spec.rejects rt c = false) added).
    { eapply Forall_impl; [|exact Hadded].
      intros t0 [c [Hc Hy]]. exists c. split; [right; exact Hc | exact Hy]. }
    destruct (push_cases _ _ _ _ _ Ha0) as [->|[t0 [-> [Hy Hr]]]].
    + exists added. split; [reflexivity | exact Hweak].
    + exists (t0 :: added). split; [rewrite <- app_assoc; reflexivity|].
      constructor; [|exact Hweak].
      exists (sr, pr). split; [left; exact Ha | split; assumption].
Qed.

(** Every token of [out] is what an accepted candidate of the feed
    yields. *)
Lemma pushed_spec (rt : Runtime) (data : value) (out : list Token.t) :
  pushed rt data = Ok out ->
  Forall (fun t0 => exists c, Spec.Candidate data c
                              /\ Spec.Yields rt c t0
                              /\ Spec.rejects rt c = false) out.
Proof.
  unfold pushed, Spec.Candidate, Spec.candidates.
  destruct data as [| | | | |rows|entries]; intros H;
    try (injection H as <-; constructor).
  - destruct (pushAll_spec _ _ _ _ _ H) as [added [-> Hadded]]. exact Hadded.
  - destruct (pushAll_spec _ _ _ _ _ H) as [added [-> Hadded]]. exact Hadded.
Qed.

(** A token that an accepted candidate yields has a trimmed non-empty
    symbol and a finite price above zero. *)
Lemma yields_good (rt : Runtime) (c : value * value) (t0 : Token.t) :
  Spec.Yields rt c t0 -> Spec.rejects rt c = false ->
  Token.symbol t0 <> []
  /\ trim (Token.symbol t0) = Token.symbol t0
  /\ Num.isFinite (Token.price t0) = true
  /\ (0 <? Token.price t0)%float = true.
Proof.
  intros [s [Hs [Hsym [Hp Hi]]]] Hr. unfold Spec.rejects in Hr.
  rewrite Hs, Hp in Hr.
  apply orb_false_iff in Hr. destruct Hr as [He Hr].
  apply orb_false_iff in Hr. destruct Hr as [Hf Hle].
  apply negb_false_iff in Hf.
  rewrite Hsym. repeat split.
  - intros E. rewrite E in He. discriminate.
  - apply trim_idem.
  - exact Hf.
  - rewrite (NumFacts.ltb_negb_leb (Token.price t0) 0%float
               (NumFacts.isFinite_not_nan _ Hf) eq_refl).
    rewrite Hle. reflexivity.
Qed.

(** ** De-duplication *)

Section Dedupe.

Variable rt : Runtime.

Local Abbreviation key := (fun t : Token.t => toUpperCase rt (Token.symbol t)).

Lemma dedupe_snoc (l : list Token.t) (t : Token.t) :
  dedupe rt (l ++ [t]) = mapSet (dedupe rt l) (key t) (upperToken rt t).
Proof. unfold dedupe. rewrite fold_left_app. reflexivity. Qed.

Lemma dedupe_keys_NoDup (l : list Token.t) : NoDup (map fst (dedupe rt l)).
Proof.
  induction l as [|t l IH] using rev_ind; [constructor|].
  rewrite dedupe_snoc. apply mapSet_keys_NoDup, IH.
Qed.

Lemma dedupe_keys (l : list Token.t) (k : jsstring) :
  In k (map fst (dedupe rt l)) <-> exists t, In t l /\ key t = k.
Proof.
  induction l as [|t l IH] using rev_ind.
  - simpl. split; [intros [] | intros [t [[] _]]].
  - rewrite dedupe_snoc, mapSet_keys_in, IH. split.
    + intros [->|[u [Hu Hk]]].
      * exists t. split; [apply in_or_app; right; left; reflexivity | reflexivity].
      * exists u. split; [apply in_or_app; left; exact Hu | exact Hk].
    + intros [u [Hu Hk]]. apply in_app_or in Hu. destruct Hu as [Hu|[->|[]]].
      * right. exists u. auto.
      * left. symmetry. exact Hk.
Qed.

(** The map holds, under a key, the last token pushed with that key. *)
Lemma dedupe_get (l : list Token.t) (k : jsstring) :
  mapGet (dedupe rt l) k
  = option_map (upperToken rt) (find (fun t => eqb k (key t)) (rev l)).
Proof.
  induction l as [|t l IH] using rev_ind; [reflexivity|].
  rewrite dedupe_snoc, rev_app_distr. simpl.
  destruct (eqb k (key t)) eqn:E.
  - apply eqb_eq in E. subst k. apply mapGet_mapSet_same.
  - apply eqb_neq in E. rewrite mapGet_mapSet_other by exact E. exact IH.
Qed.


Lemma find_split (p : Token.t -> bool) (l : list Token.t) (t : Token.t) :
  find p l = Some t ->
  exists a b, l = a ++ t :: b /\ p t = true /\ forallb (fun u => negb (p u)) a = true.
Proof.
  induction l as [|u l IH]; simpl; [discriminate|].
  destruct (p u) eqn:E.
  - intros [= ->]. exists [], l. auto.
  - intros H. destruct (IH H) as [a [b [-> [Ht Ha]]]].
    exists (u :: a), b. simpl. rewrite E, Ha. auto.
Qed.

Lemma find_rev_split (p : Token.t -> bool) (l : list Token.t) (t : Token.t) :
  find p (rev l) = Some t ->
  exists pre post, l = pre ++ t :: post /\ p t = true
                   /\ forallb (fun u => negb (p u)) post = true.
Proof.
  intros H. destruct (find_split _ _ _ H) as [a [b [Hl [Ht Ha]]]].
  exists (rev b), (rev a). split; [|split; [exact Ht|]].
  - rewrite <- (rev_involutive l), Hl, rev_app_distr. simpl.
    rewrite <- app_assoc. reflexivity.
  - rewrite forallb_forall in *. intros u Hu. apply Ha, in_rev. exact Hu.
Qed.

(** Every entry of the map is the last token pushed under its key, with
    its symbol upper-cased. *)
Lemma dedupe_entry (l : list Token.t) (k : jsstring) (v : Token.t) :
  In (k, v) (dedupe rt l) ->
  exists pre t0 post,
    l = pre ++ t0 :: post /\ key t0 = k /\ v = upperToken rt t0
    /\ forallb (fun u => negb (eqb k (key u))) post = true.
Proof.
  intros H. apply (mapGet_In _ _ _ (dedupe_keys_NoDup l)) in H.
  rewrite dedupe_get in H.
  destruct (find _ (rev l)) as [t0|] eqn:E; [|discriminate].
  injection H as <-.
  destruct (find_rev_split _ _ _ E) as [pre [post [Hl [Hk Hpost]]]].
  apply eqb_eq in Hk.
  exists pre, t0, post. auto.
Qed.


Lemma dedupe_symbols (l : list Token.t) :
  map Token.symbol (mapValues (dedupe rt l)) = map fst (dedupe rt l).
Proof.
  unfold mapValues. rewrite map_map. apply map_ext_in.
  intros [k v] Hin. simpl.
  destruct (dedupe_entry _ _ _ Hin) as [pre [t0 [post [_ [Hk [-> _]]]]]].
  exact Hk.
Qed.

(** When the keys of the tokens are their symbols and no two are alike,
    the map is the list itself. *)
Lemma dedupe_canonical (l : list Token.t) :
  Forall (fun t => key t = Token.symbol t) l ->
  NoDup (map Token.symbol l) ->
  dedupe rt l = map (fun t => (Token.symbol t, t)) l.
Proof.
  induction l as [|t l IH] using rev_ind; intros Hk Hnd; [reflexivity|].
  apply Forall_app in Hk. destruct Hk as [Hkl Hkt].
  inversion Hkt as [|? ? Hkt' _]; subst.
  rewrite map_app in Hnd. simpl in Hnd.
  pose proof (NoDup_remove_1 _ _ _ Hnd) as Hnd1.
  pose proof (NoDup_remove_2 _ _ _ Hnd) as Hnd2.
  rewrite app_nil_r in Hnd1, Hnd2.
  rewrite dedupe_snoc, (IH Hkl Hnd1).
  unfold upperToken. rewrite Hkt'.
  destruct t as [s p u]. simpl in *.
  rewrite mapSet_fresh; [rewrite map_app; reflexivity|].
  rewrite map_map. simpl. exact Hnd2.
Qed.

End Dedupe.

(** ** The list [parsePrices] returns *)

Lemma parsePrices_finish (rt : Runtime) (data : value) (final : list Token.t) :
  parsePrices rt data = Ok final ->
  exists out, pushed rt data = Ok out /\ final = finish rt out.
Proof.
  unfold parsePrices. intros H. inv_bind H. injection H as <-.
  exists a. auto.
Qed.

Lemma finish_perm (rt : Runtime) (out : list Token.t) :
  Permutation (finish rt out) (mapValues (dedupe rt out)).
Proof. apply sort_perm. Qed.

(** A token of the result is the last token pushed under its key, with
    its symbol upper-cased. *)
Lemma finish_origin (rt : Runtime) (out : list Token.t) (t : Token.t) :
  In t (finish rt out) ->
  exists pre t0 post,
    out = pre ++ t0 :: post /\ t = upperToken rt t0
    /\ forallb (fun u => negb (eqb (Token.symbol t) (toUpperCase rt (Token.symbol u))))
               post = true.
Proof.
  intros H. apply (Permutation_in _ (finish_perm rt out)) in H.
  unfold mapValues in H. apply in_map_iff in H. destruct H as [[k v] [Hv Hin]].
  simpl in Hv. subst v.
  destruct (dedupe_entry _ _ _ _ Hin) as [pre [t0 [post [Hl [Hk [Ht Hpost]]]]]].
  exists pre, t0, post. split; [exact Hl|]. split; [exact Ht|].
  subst t. simpl. rewrite Hk. exact Hpost.
Qed.


Lemma finish_NoDup (rt : Runtime) (out : list Token.t) :
  NoDup (map Token.symbol (finish rt out)).
Proof.
  apply (Permutation_NoDup (l := map Token.symbol (mapValues (dedupe rt out)))).
  - apply Permutation_map, Permutation_sym, finish_perm.
  - rewrite dedupe_symbols. apply dedupe_keys_NoDup.
Qed.

Lemma finish_sorted (rt : Runtime) (out : list Token.t) :
  Spec.CollationLaws rt -> Spec.SortedBySymbol rt (finish rt out).
Proof.
  intros [Hanti Htrans]. unfold Spec.SortedBySymbol, finish.
  apply sort_sorted.
  - intros a b. apply Hanti.
  - intros a b c. apply Htrans.
Qed.

(** In order and free of repeated symbols, a list that the collation
    separates is strictly in order. *)
Lemma sorted_strict (rt : Runtime) (l : list Token.t) :
  Spec.SortedBySymbol rt l -> NoDup (map Token.symbol l) -> Spec.Separates rt l ->
  Spec.StrictlySortedBySymbol rt l.
Proof.
  unfold Spec.SortedBySymbol, Spec.StrictlySortedBySymbol.
  induction l as [|a l IH]; intros Hs Hnd Hsep; [constructor|].
  inversion Hs as [|? ? Hl Ha]; subst.
  simpl in Hnd. inversion Hnd as [|? ? Hnin Hnd']; subst.
  constructor.
  - apply IH; [exact Hl | exact Hnd'|].
    intros x y Hx Hy. apply Hsep; right; assumption.
  - rewrite Forall_forall in *. intros b Hb.
    specialize (Ha b Hb). unfold notAfter, bySymbol in *.
    destruct (localeCompare rt (Token.symbol a) (Token.symbol b)) eqn:E;
      [|reflexivity|congruence].
    exfalso. apply Hnin.
    rewrite (Hsep a b (or_introl eq_refl) (or_intror Hb) E).
    apply in_map, Hb.
Qed.

(** ** The array [out] lists the accepted candidates in feed order *)

Lemma push_by_rejects (rt : Runtime) (out : list Token.t) (sr pr : value)
      (out' : list Token.t) :
  push rt out sr pr = Ok out' ->
  if Spec.rejects rt (sr, pr) then out' = out
  else exists t0, out' = out ++ [t0] /\ Spec.Yields rt (sr, pr) t0.
Proof.
  intros H. destruct (push_cases _ _ _ _ _ H) as [->|[t0 [-> [Hy Hr]]]].
  - unfold push in H. unfold Spec.rejects. simpl.
    inv_bind H. rewrite Ha.
    destruct (coercePrice rt pr) as [| | |p| | |];
      try (rewrite orb_true_r; reflexivity).
    destruct (isEmpty (trim a) || negb (Num.isFinite p) || (p <=? 0)%float) eqn:Ec.
    + rewrite <- orb_assoc in Ec. rewrite Ec. reflexivity.
    + inv_bind H. injection H as H.
      apply (f_equal (@List.length Token.t)) in H.
      rewrite length_app in H. simpl in H. lia.
  - rewrite Hr. exists t0. auto.
Qed.

Lemma pushAll_order {A : Type} (rt : Runtime) (cand : A -> result (value * value))
      (xs : list A) (out out' : list Token.t) :
  pushAll rt cand xs out = Ok out' ->
  exists cs added,
    map cand xs = map Ok cs /\ out' = out ++ added
    /\ Forall2 (Spec.Yields rt) (filter (fun c => negb (Spec.rejects rt c)) cs) added.
Proof.
  revert out out'. induction xs as [|x xs IH]; simpl; intros out out' H.
  - injection H as <-. exists [], []. rewrite app_nil_r. repeat split. constructor.
  - inv_bind H. destruct a as [sr pr]. inv_bind H. simpl in Ha0.
    destruct (IH _ _ H) as [cs [added [Hcs [-> Hadded]]]].
    pose proof (push_by_rejects _ _ _ _ _ Ha0) as Hp.
    exists ((sr, pr) :: cs). simpl. rewrite Ha, Hcs.
    destruct (Spec.rejects rt (sr, pr)); simpl.
    + rewrite Hp. exists added. auto.
    + destruct Hp as [t0 [-> Hy]]. exists (t0 :: added).
      rewrite <- app_assoc. repeat split. constructor; assumption.
Qed.

(** No candidate threw, and [out] holds, in the order of the feed, what
    the candidates that are not rejected yield. *)
Lemma pushed_order (rt : Runtime) (data : value) (out : list Token.t) :
  pushed rt data = Ok out ->
  exists cs,
    Spec.candidates data = map Ok cs
    /\ Forall2 (Spec.Yields rt) (filter (fun c => negb (Spec.rejects rt c)) cs) out.
Proof.
  unfold pushed, Spec.candidates.
  destruct data as [| | | | |rows|entries]; intros H;
    try (injection H as <-; exists []; split; [reflexivity | constructor]).
  - destruct (pushAll_order _ _ _ _ _ H) as [cs [added [Hcs [-> Hadded]]]].
    exists cs. auto.
  - destruct (pushAll_order _ _ _ _ _ H) as [cs [added [Hcs [-> Hadded]]]].
    exists cs. auto.
Qed.

(** A candidate yields at most one token. *)
Lemma yields_functional (rt : Runtime) (c : value * value) (t1 t2 : Token.t) :
  Spec.Yields rt c t1 -> Spec.Yields rt c t2 -> t1 = t2.
Proof.
  intros [s1 [Hs1 [Hn1 [Hp1 Hi1]]]] [s2 [Hs2 [Hn2 [Hp2 Hi2]]]].
  assert (Es : s1 = s2) by congruence. subst s2.
  destruct t1 as [n1 p1 i1], t2 as [n2 p2 i2]. simpl in *.
  assert (Ep : p1 = p2) by congruence.
  assert (Ei : i1 = i2) by congruence.
  subst. reflexivity.
Qed.

Lemma map_Ok_inj {A : Type} (l1 l2 : list A) :
  map (@Ok A) l1 = map (@Ok A) l2 -> l1 = l2.
Proof.
  revert l2. induction l1 as [|x l1 IH]; intros [|y l2] H; try discriminate.
  - reflexivity.
  - simpl in H. injection H as -> H. f_equal. apply IH, H.
Qed.


Lemma Forall2_yields {A B : Type} (P : A -> B -> Prop) (l1 : list A) (l2 : list B) (x : A) :
  Forall2 P l1 l2 -> In x l1 -> exists y, In y l2 /\ P x y.
Proof.
  induction 1 as [|x' y l1 l2 Hxy _ IH]; simpl; [contradiction|].
  intros [->|Hin].
  - exists y. auto.
  - destruct (IH Hin) as [y' [Hy' Hp]]. exists y'. auto.
Qed.

(** What the elements of a list yield, one by one, is a permutation of
    what the elements of a permutation of the list yield. *)
Lemma Forall2_perm {A B : Type} (P : A -> B -> Prop) :
  (forall x y y', P x y -> P x y' -> y = y') ->
  forall (l1 : list A) (m1 : list B), Forall2 P l1 m1 ->
  forall (l2 : list A) (m2 : list B), Forall2 P l2 m2 ->
  Permutation l1 l2 -> Permutation m1 m2.
Proof.
  intros Hfun l1 m1 H1.
  induction H1 as [|x y l1 m1 Hxy _ IH]; intros l2 m2 H2 Hperm.
  - apply Permutation_nil in Hperm. subst l2. inversion H2. constructor.
  - destruct (Permutation_vs_cons_inv (Permutation_sym Hperm)) as [a [b ->]].
    apply Permutation_cons_app_inv in Hperm.
    apply Forall2_app_inv_l in H2. destruct H2 as [ma [mb' [Ha [Hb ->]]]].
    inversion Hb as [|? y' ? mb Hxy' Hb']; subst.
    rewrite (Hfun x y' y Hxy' Hxy).
    apply Permutation_cons_app. apply (IH (a ++ b)); [|exact Hperm].
    apply Forall2_app; assumption.
Qed.


(** ** Feeds on which [parsePrices] returns *)

Lemma push_returns (rt : Runtime) (out : list Token.t) (s : jsstring) (p : value) :
  (exists e, encodeURIComponent (trim s) = Ok e) ->
  exists out', push rt out (VStr s) p = Ok out'.
Proof.
  intros [e He]. unfold push, orEmpty.
  assert (Hs : ToString rt (if truthy (VStr s) then VStr s else VStr []) = Ok s).
  { destruct s; reflexivity. }
  rewrite Hs. unfold bind at 1.
  destruct (coercePrice rt p) as [| | |x| | |]; eauto.
  destruct (isEmpty (trim s) || negb (Num.isFinite x) || (x <=? 0)%float); eauto.
  unfold iconUrl. rewrite He. simpl. eauto.
Qed.

Lemma pushAll_returns {A : Type} (rt : Runtime) (cand : A -> result (value * value))
      (xs : list A) (out : list Token.t) :
  Forall (fun x => exists s p, cand x = Ok (VStr s, p)
                               /\ exists e, encodeURIComponent (trim s) = Ok e) xs ->
  exists out', pushAll rt cand xs out = Ok out'.
Proof.
  intros H. revert out. induction H as [|x xs [s [p [Hc He]]] _ IH]; intros out; simpl.
  - eauto.
  - rewrite Hc. simpl. destruct (push_returns rt out s p He) as [out1 H1].
    rewrite H1. simpl. apply IH.
Qed.

Lemma entryCandidate_returns (k : jsstring) (v : value) :
  exists p, entryCandidate (k, v) = Ok (VStr k, p).
Proof.
  unfold entryCandidate.
  destruct (truthy v && isObject v && hasProperty (js "price") v) eqn:E; eauto.
  destruct v as [| | | | | |props]; simpl in E;
    try (rewrite ?andb_false_r in E; discriminate).
  unfold get. destruct (lookup (js "price") props); simpl; eauto.
Qed.

(** On a feed that is an object whose keys hold no unpaired surrogate,
    [parsePrices] returns, whatever the values are. *)
Lemma object_feed_returns (rt : Runtime) (entries : list (jsstring * value)) :
  Forall (fun kv => exists e, encodeURIComponent (trim (fst kv)) = Ok e) entries ->
  exists out, parsePrices rt (VObj entries) = Ok out.
Proof.
  intros H. unfold parsePrices, pushed.
  destruct (pushAll_returns rt entryCandidate entries []) as [out Hout].
  - eapply Forall_impl; [|exact H]. intros [k v] He. simpl in He.
    destruct (entryCandidate_returns k v) as [p Hp]. eauto.
  - rewrite Hout. simpl. eauto.
Qed.

(** On a feed that is neither an array nor an object, [parsePrices]
    returns the empty list. *)
Lemma scalar_feed_empty (rt : Runtime) (data : value) :
  match data with VArr _ | VObj _ => False | _ => True end ->
  parsePrices rt data = Ok [].
Proof. destruct data; simpl; intros H; try contradiction; reflexivity. Qed.

(** Two more feeds on which [parsePrices] throws: a key that
    [encodeURIComponent] refuses, and a symbol that [String] cannot
    convert. *)
Lemma surrogate_key_throws (rt : Runtime) :
  parsePrices rt Sample.feedSurrogate = Throw URIError.
Proof. reflexivity. Qed.

Lemma object_symbol_throws (rt : Runtime) :
  parsePrices rt Sample.feedObjectSymbol = Throw TypeError.
Proof. reflexivity. Qed.

End NormalizerFacts.

(* ================================================================== *)
(** * The sample engines obey the laws *)

Module SampleFacts.

Import Str StrFacts JS JSFacts Sample.
Local Open Scope Z_scope.

(** Case analysis on the integer comparisons of the goal. *)
Ltac zbool :=
  repeat (match goal with
          | |- context [Z.leb ?a ?b] => destruct (Z.leb_spec a b); try lia
          | |- context [Z.eqb ?a ?b] => destruct (Z.eqb_spec a b); try lia
          | |- context [Z.ltb ?a ?b] => destruct (Z.ltb_spec a b); try lia
          end; simpl in *);
  simpl; try reflexivity; try lia.

Lemma upperUnit_idem (c : Z) : upperUnit (upperUnit c) = upperUnit c.
Proof. unfold upperUnit. zbool. Qed.

Lemma upperUnit_space (c : Z) : isWhiteSpace (upperUnit c) = isWhiteSpace c.
Proof.
  unfold upperUnit. destruct ((97 <=? c) && (c <=? 122)) eqn:E; [|reflexivity].
  apply andb_true_iff in E. destruct E as [E1 E2].
  apply Z.leb_le in E1. apply Z.leb_le in E2.
  unfold isWhiteSpace. zbool.
Qed.

Lemma upperUnit_unreserved (c : Z) :
  unreserved c = true -> unreserved (upperUnit c) = true.
Proof.
  unfold upperUnit. destruct ((97 <=? c) && (c <=? 122)) eqn:E; [|auto].
  apply andb_true_iff in E. destruct E as [E1 E2].
  apply Z.leb_le in E1. apply Z.leb_le in E2.
  intros _. unfold unreserved. zbool.
Qed.

Lemma upperUnit_reserved (c : Z) : unreserved c = false -> upperUnit c = c.
Proof.
  unfold upperUnit. destruct ((97 <=? c) && (c <=? 122)) eqn:E; [|reflexivity].
  unfold unreserved. rewrite E. rewrite orb_true_r. discriminate.
Qed.

Lemma upperAscii_idem (s : jsstring) : upperAscii (upperAscii s) = upperAscii s.
Proof.
  unfold upperAscii. rewrite map_map. apply map_ext. exact upperUnit_idem.
Qed.

Lemma upperAscii_nonempty (s : jsstring) : s <> [] -> upperAscii s <> [].
Proof. destruct s; simpl; congruence. Qed.

Lemma upperAscii_trimStart (s : jsstring) :
  trimStart (upperAscii s) = upperAscii (trimStart s).
Proof.
  induction s as [|c r IH]; simpl; [reflexivity|].
  rewrite upperUnit_space. destruct (isWhiteSpace c); [exact IH | reflexivity].
Qed.

Lemma upperAscii_rev (s : jsstring) : rev (upperAscii s) = upperAscii (rev s).
Proof. unfold upperAscii. symmetry. apply map_rev. Qed.

Lemma upperAscii_trim (s : jsstring) : trim (upperAscii s) = upperAscii (trim s).
Proof.
  unfold trim, trimEnd.
  rewrite upperAscii_trimStart, upperAscii_rev, upperAscii_trimStart, upperAscii_rev.
  reflexivity.
Qed.

Lemma upperAscii_encodable (s e : jsstring) :
  encodeURIComponent s = Ok e ->
  exists e', encodeURIComponent (upperAscii s) = Ok e'.
Proof.
  revert e. induction s as [|c rest IH1 IH2] using units_ind; intros e H.
  - exists []. reflexivity.
  - cbn [encodeURIComponent] in H.
    change (upperAscii (c :: rest)) with (upperUnit c :: upperAscii rest).
    cbn [encodeURIComponent].
    destruct (unreserved c) eqn:Eu.
    + rewrite (upperUnit_unreserved _ Eu).
      inv_bind H. destruct (IH1 _ Ha) as [e' He'].
      rewrite He'. cbn [bind]. eauto.
    + rewrite (upperUnit_reserved _ Eu), Eu.
      destruct (isLead c).
      * destruct rest as [|d rest']; [discriminate|].
        change (upperAscii (d :: rest')) with (upperUnit d :: upperAscii rest').
        destruct (isTrail d) eqn:Et; [|discriminate].
        assert (Ed : upperUnit d = d).
        { apply upperUnit_reserved. unfold isTrail in Et.
          apply andb_true_iff in Et. destruct Et as [E1 E2].
          apply Z.leb_le in E1. apply Z.leb_le in E2. unfold unreserved. zbool. }
        rewrite Ed, Et.
        inv_bind H. destruct (IH2 d rest' eq_refl _ Ha) as [e' He'].
        rewrite He'. cbn [bind]. eauto.
      * destruct (isTrail c); [discriminate|].
        inv_bind H. destruct (IH1 _ Ha) as [e' He'].
        rewrite He'. cbn [bind]. eauto.
Qed.

Lemma upperAscii_laws (rt : Runtime) :
  toUpperCase rt = upperAscii -> Spec.CaseLaws rt.
Proof.
  intros E. constructor; rewrite E.
  - exact upperAscii_idem.
  - exact upperAscii_nonempty.
  - intros s Hs. rewrite upperAscii_trim, Hs. reflexivity.
  - exact upperAscii_encodable.
Qed.

Lemma compareUnits_antisym (a b : jsstring) :
  compareUnits b a = CompOpp (compareUnits a b).
Proof.
  revert b. induction a as [|x a IH]; intros [|y b]; simpl; try reflexivity.
  rewrite (Z.compare_antisym x y).
  destruct (x ?= y); simpl; [apply IH | reflexivity | reflexivity].
Qed.

Lemma compareUnits_trans (a b c : jsstring) :
  compareUnits a b <> Gt -> compareUnits b c <> Gt -> compareUnits a c <> Gt.
Proof.
  revert b c. induction a as [|x a IH]; intros [|y b] [|z c]; simpl;
    try congruence.
  destruct (Z.compare_spec x y) as [Hxy|Hxy|Hxy];
    destruct (Z.compare_spec y z) as [Hyz|Hyz|Hyz]; try congruence; intros H1 H2.
  - subst. rewrite Z.compare_refl. eapply IH; eassumption.
  - subst. rewrite (proj2 (Z.compare_lt_iff y z) Hyz). discriminate.
  - subst. rewrite (proj2 (Z.compare_lt_iff x z) Hxy). discriminate.
  - rewrite (proj2 (Z.compare_lt_iff x z) ltac:(lia)). discriminate.
Qed.

Lemma ascii_case : Spec.CaseLaws ascii.
Proof. apply upperAscii_laws. reflexivity. Qed.

Lemma ascii_collation : Spec.CollationLaws ascii.
Proof.
  constructor; simpl.
  - intros a b. apply compareUnits_antisym.
  - intros a b c. apply compareUnits_trans.
Qed.

Lemma canonical_case : Spec.CaseLaws canonical.
Proof. apply upperAscii_laws. reflexivity. Qed.

Lemma canonical_collation : Spec.CollationLaws canonical.
Proof.
  constructor; simpl.
  - intros a b. apply compareUnits_antisym.
  - intros a b c. apply compareUnits_trans.
Qed.

End SampleFacts.

(* ================================================================== *)
(** * The statements of the design document: the price normalizer *)

Module NormalizerClaims.

Import Str StrFacts JS JSFacts Normalizer NormalizerFacts.
Local Open Scope Z_scope.

(** Every token of the result comes from a candidate of the feed that
    is not rejected: it is what the candidate yields, with the symbol
    upper-cased. *)
Lemma token_origin (rt : Runtime) (data : value) (out : list Token.t) (t : Token.t) :
  parsePrices rt data = Ok out -> In t out ->
  exists c t0, Spec.Candidate data c /\ Spec.rejects rt c = false
               /\ Spec.Yields rt c t0 /\ t = upperToken rt t0.
Proof.
  intros H Hin. destruct (parsePrices_finish _ _ _ H) as [out0 [Hp ->]].
  destruct (finish_origin _ _ _ Hin) as [pre [t0 [post [Hout [Ht _]]]]].
  pose proof (pushed_spec _ _ _ Hp) as Hall. rewrite Forall_forall in Hall.
  destruct (Hall t0) as [c [Hc [Hy Hr]]].
  { rewrite Hout. apply in_or_app. right. left. reflexivity. }
  exists c, t0. auto.
Qed.

(** The tokens of the result are well formed. *)
Lemma token_good (rt : Runtime) (data : value) (out : list Token.t) (t : Token.t) :
  Spec.CaseLaws rt -> parsePrices rt data = Ok out -> In t out ->
  Token.symbol t <> []
  /\ trim (Token.symbol t) = Token.symbol t
  /\ toUpperCase rt (Token.symbol t) = Token.symbol t
  /\ Num.isFinite (Token.price t) = true
  /\ (0 <? Token.price t)%float = true.
Proof.
  intros [Hidem Hne Htrim _] H Hin.
  destruct (token_origin _ _ _ _ H Hin) as [c [t0 [_ [Hr [Hy ->]]]]].
  destruct (yields_good _ _ _ Hy Hr) as [G1 [G2 [G3 G4]]].
  simpl. repeat split; auto.
Qed.

(** C3 (amended).  For every feed, every token of the list that
    [parsePrices] returns has a non-empty upper-case symbol and a finite
    price above zero; no two tokens share a symbol; the list is in
    ascending order of symbol under the locale comparison, a token never
    comparing greater than a later one, and the order is strict when the
    comparison tells the symbols of the list apart; every token comes
    from a candidate entry that is not rejected (no empty or blank
    symbol, no price that is not a finite number, no price at or below
    zero). *)
Theorem parsePrices_invariants (rt : Runtime) (data : value) (out : list Token.t) :
  Spec.CaseLaws rt -> Spec.CollationLaws rt ->
  parsePrices rt data = Ok out ->
  Forall (fun t => Token.symbol t <> []
                   /\ toUpperCase rt (Token.symbol t) = Token.symbol t
                   /\ Num.isFinite (Token.price t) = true
                   /\ (0 <? Token.price t)%float = true) out
  /\ NoDup (map Token.symbol out)
  /\ Spec.SortedBySymbol rt out
  /\ (Spec.Separates rt out -> Spec.StrictlySortedBySymbol rt out)
  /\ Forall (fun t => exists c t0, Spec.Candidate data c
                                   /\ Spec.rejects rt c = false
                                   /\ Spec.Yields rt c t0
                                   /\ t = upperToken rt t0) out.
Proof.
  intros Hcase Hcoll H.
  assert (Hnd : NoDup (map Token.symbol out)).
  { destruct (parsePrices_finish _ _ _ H) as [out0 [_ ->]]. apply finish_NoDup. }
  assert (Hs : Spec.SortedBySymbol rt out).
  { destruct (parsePrices_finish _ _ _ H) as [out0 [_ ->]].
    apply finish_sorted, Hcoll. }
  split; [|split; [exact Hnd | split; [exact Hs | split]]].
  - apply Forall_forall. intros t Hin.
    destruct (token_good _ _ _ _ Hcase H Hin) as [G1 [_ [G3 [G4 G5]]]]. auto.
  - intros Hsep. apply sorted_strict; assumption.
  - apply Forall_forall. intros t Hin. exact (token_origin _ _ _ _ H Hin).
Qed.

(** The statement holds of the feed [{"BTC": 50000, "ETH": 3000}]. *)
Lemma parsePrices_invariants_witness :
  Forall (fun t => Token.symbol t <> []
                   /\ toUpperCase Sample.ascii (Token.symbol t) = Token.symbol t
                   /\ Num.isFinite (Token.price t) = true
                   /\ (0 <? Token.price t)%float = true) Sample.tokensBtcEth
  /\ NoDup (map Token.symbol Sample.tokensBtcEth)
  /\ Spec.SortedBySymbol Sample.ascii Sample.tokensBtcEth
  /\ (Spec.Separates Sample.ascii Sample.tokensBtcEth ->
      Spec.StrictlySortedBySymbol Sample.ascii Sample.tokensBtcEth)
  /\ Forall (fun t => exists c t0, Spec.Candidate Sample.feedBtcEth c
                                   /\ Spec.rejects Sample.ascii c = false
                                   /\ Spec.Yields Sample.ascii c t0
                                   /\ t = upperToken Sample.ascii t0)
            Sample.tokensBtcEth.
Proof.
  exact (parsePrices_invariants Sample.ascii Sample.feedBtcEth Sample.tokensBtcEth
           SampleFacts.ascii_case SampleFacts.ascii_collation eq_refl).
Defined.

(** C3 as stated fails: on the feed [{"Å": 1, "Å": 2}], an
    engine whose collation obeys the laws and, as ECMA-262 requires,
    compares the two spellings equal returns two tokens that are not in
    strict order. *)
Lemma strict_order_counterexample :
  Spec.CaseLaws Sample.canonical /\ Spec.CollationLaws Sample.canonical
  /\ exists out, parsePrices Sample.canonical Sample.feedRing = Ok out
                 /\ ~ Spec.StrictlySortedBySymbol Sample.canonical out.
Proof.
  split; [exact SampleFacts.canonical_case|].
  split; [exact SampleFacts.canonical_collation|].
  eexists. split; [vm_compute; reflexivity|].
  intros Hs. inversion Hs as [|? ? _ Hall]; subst.
  inversion Hall as [|? ? Hlt _]; subst.
  vm_compute in Hlt. discriminate.
Qed.




(** C5 (the code fails it).  On the feed [[null]] the array loop reads
    [row.currency] of [null], and [parsePrices] throws a [TypeError]. *)
Theorem null_row_throws (rt : Runtime) :
  parsePrices rt Sample.feedNull = Throw TypeError.
Proof. reflexivity. Qed.

(** ** Icons *)

Lemma iconUrl_urlChar (s u : jsstring) :
  iconUrl s = Ok u -> forallb Spec.urlChar u = true.
Proof.
  unfold iconUrl. destruct (encodeURIComponent s) as [e|] eqn:E;
    unfold bind; [|discriminate].
  intros H. assert (Hu : u = iconPrefix ++ e ++ js ".svg") by congruence.
  rewrite Hu, !forallb_app, (encodeURIComponent_urlChar _ _ E). reflexivity.
Qed.

(** C7 (amended).  The icon reference of every token of the result is
    a function of the trimmed symbol as the feed spelt it, not of the
    upper-cased symbol: it is the fixed prefix, the symbol of the
    candidate entry percent-encoded, and [.svg], and it is made of
    URL-safe characters only. *)
Theorem icon_of_feed_symbol (rt : Runtime) (data : value) (out : list Token.t) :
  parsePrices rt data = Ok out ->
  Forall (fun t => exists c s,
              Spec.Candidate data c
              /\ ToString rt (orEmpty (fst c)) = Ok s
              /\ Token.symbol t = toUpperCase rt (trim s)
              /\ iconUrl (trim s) = Ok (Token.iconUrl t)
              /\ forallb Spec.urlChar (Token.iconUrl t) = true) out.
Proof.
  intros H. apply Forall_forall. intros t Hin.
  destruct (token_origin _ _ _ _ H Hin) as [c [t0 [Hc [_ [[s [Hs [Hsym [_ Hi]]]] ->]]]]].
  exists c, s. simpl. rewrite Hsym.
  repeat split; auto. exact (iconUrl_urlChar _ _ Hi).
Qed.

(** The statement holds of the feed [{"btc": 1}]. *)
Lemma icon_of_feed_symbol_witness :
  Forall (fun t => exists c s,
              Spec.Candidate Sample.feedLower c
              /\ ToString Sample.ascii (orEmpty (fst c)) = Ok s
              /\ Token.symbol t = toUpperCase Sample.ascii (trim s)
              /\ iconUrl (trim s) = Ok (Token.iconUrl t)
              /\ forallb Spec.urlChar (Token.iconUrl t) = true)
         [Sample.tokenLower].
Proof.
  exact (icon_of_feed_symbol Sample.ascii Sample.feedLower [Sample.tokenLower] eq_refl).
Defined.

(** C7 as stated fails: the feeds [{"btc": 1}] and [{"BTC": 1}] give a
    token with the same symbol [BTC] and two different icon
    references. *)
Lemma icon_depends_on_casing :
  parsePrices Sample.ascii Sample.feedLower = Ok [Sample.tokenLower]
  /\ parsePrices Sample.ascii Sample.feedUpper = Ok [Sample.tokenUpper]
  /\ Token.symbol Sample.tokenLower = Token.symbol Sample.tokenUpper
  /\ Token.iconUrl Sample.tokenLower <> Token.iconUrl Sample.tokenUpper.
Proof.
  repeat split; try reflexivity.
  vm_compute. discriminate.
Qed.

(** ** Re-injection *)

Lemma rowCandidate_tokenValue (t : Token.t) :
  rowCandidate (Spec.tokenValue t) = Ok (VStr (Token.symbol t), VNum (Token.price t)).
Proof. reflexivity. Qed.

Lemma push_reinjected (rt : Runtime) (acc : list Token.t) (t : Token.t) :
  Token.symbol t <> [] -> trim (Token.symbol t) = Token.symbol t ->
  Num.isFinite (Token.price t) = true -> (0 <? Token.price t)%float = true ->
  push rt acc (VStr (Token.symbol t)) (VNum (Token.price t))
  = (t' <- Spec.reicon t ;; Ok (acc ++ [t'])).
Proof.
  intros Hne Htrim Hfin Hpos.
  assert (Htruthy : truthy (VStr (Token.symbol t)) = true).
  { simpl. destruct (Token.symbol t); [congruence | reflexivity]. }
  assert (Hempty : isEmpty (Token.symbol t) = false).
  { destruct (Token.symbol t); [congruence | reflexivity]. }
  assert (Hle : (Token.price t <=? 0)%float = false).
  { rewrite (NumFacts.ltb_negb_leb (Token.price t) 0%float
               (NumFacts.isFinite_not_nan _ Hfin) eq_refl) in Hpos.
    apply negb_true_iff in Hpos. exact Hpos. }
  unfold push, orEmpty. rewrite Htruthy.
  change (ToString rt (VStr (Token.symbol t))) with (Ok (Token.symbol t)).
  unfold bind at 1. rewrite Htrim.
  change (coercePrice rt (VNum (Token.price t))) with (VNum (Token.price t)).
  cbv iota beta. rewrite Hempty, Hfin, Hle. simpl orb. cbv iota.
  unfold Spec.reicon. destruct (iconUrl (Token.symbol t)); reflexivity.
Qed.

Lemma pushAll_reinjected (rt : Runtime) (l acc : list Token.t) :
  Forall (fun t => Token.symbol t <> []
                   /\ trim (Token.symbol t) = Token.symbol t
                   /\ toUpperCase rt (Token.symbol t) = Token.symbol t
                   /\ Num.isFinite (Token.price t) = true
                   /\ (0 <? Token.price t)%float = true) l ->
  pushAll rt rowCandidate (map Spec.tokenValue l) acc
  = (ys <- Spec.mapM Spec.reicon l ;; Ok (acc ++ ys)).
Proof.
  revert acc. induction l as [|t l IH]; intros acc H.
  - simpl. rewrite app_nil_r. reflexivity.
  - inversion H as [|? ? [G1 [G2 [_ [G4 G5]]]] Hl]; subst.
    change (pushAll rt rowCandidate (map Spec.tokenValue (t :: l)) acc)
      with (c <- rowCandidate (Spec.tokenValue t) ;;
            out' <- push rt acc (fst c) (snd c) ;;
            pushAll rt rowCandidate (map Spec.tokenValue l) out').
    rewrite rowCandidate_tokenValue.
    change (Spec.mapM Spec.reicon (t :: l))
      with (y <- Spec.reicon t ;; ys <- Spec.mapM Spec.reicon l ;; Ok (y :: ys)).
    unfold bind at 1. unfold fst, snd.
    rewrite (push_reinjected rt acc t G1 G2 G4 G5).
    destruct (Spec.reicon t) as [t'|e]; [|reflexivity].
    unfold bind at 1 2 4. rewrite (IH _ Hl).
    destruct (Spec.mapM Spec.reicon l) as [ys|e]; [|reflexivity].
    unfold bind. rewrite <- app_assoc. reflexivity.
Qed.

Lemma mapM_reicon_spec (l ys : list Token.t) :
  Spec.mapM Spec.reicon l = Ok ys ->
  map Token.symbol ys = map Token.symbol l
  /\ map Token.price ys = map Token.price l
  /\ Spec.IconsFromSymbols ys.
Proof.
  revert ys. induction l as [|t l IH]; simpl; intros ys H.
  - injection H as <-. repeat split. constructor.
  - inv_bind H. inv_bind H. injection H as <-.
    destruct (IH _ Ha0) as [H1 [H2 H3]].
    unfold Spec.reicon in Ha. inv_bind Ha. injection Ha as <-.
    simpl. rewrite H1, H2. repeat split.
    constructor; [exact Ha1 | exact H3].
Qed.

Lemma mapM_reicon_fixed (l : list Token.t) :
  Spec.IconsFromSymbols l -> Spec.mapM Spec.reicon l = Ok l.
Proof.
  induction 1 as [|t l Ht _ IH]; [reflexivity|].
  change (Spec.mapM Spec.reicon (t :: l))
    with (y <- Spec.reicon t ;; ys <- Spec.mapM Spec.reicon l ;; Ok (y :: ys)).
  rewrite IH. unfold Spec.reicon. rewrite Ht.
  destruct t; reflexivity.
Qed.

Lemma mapM_total {A B : Type} (f : A -> result B) (l : list A) :
  Forall (fun x => exists y, f x = Ok y) l -> exists ys, Spec.mapM f l = Ok ys.
Proof.
  induction 1 as [|x l [y Hy] _ [ys IH]]; simpl.
  - exists []. reflexivity.
  - rewrite Hy, IH. simpl. eauto.
Qed.

(** Being canonical depends on the symbols and the prices only. *)
Lemma canonical_same (rt : Runtime) (l ys : list Token.t) :
  map Token.symbol ys = map Token.symbol l ->
  map Token.price ys = map Token.price l ->
  Spec.Canonical rt l -> Spec.Canonical rt ys.
Proof.
  intros Hs Hp [Hgood [Hnd Hsorted]]. unfold Spec.Canonical.
  rewrite Hs. split; [|split; [exact Hnd|]].
  - clear Hnd Hsorted. revert ys Hs Hp.
    induction Hgood as [|t l Ht _ IH]; intros [|y ys] Hs Hp;
      try discriminate; constructor.
    + injection Hs as Hs1 _. injection Hp as Hp1 _. rewrite Hs1, Hp1. exact Ht.
    + injection Hs as _ Hs2. injection Hp as _ Hp2. apply IH; assumption.
  - clear Hgood Hnd Hp. unfold Spec.SortedBySymbol in *. revert ys Hs.
    induction Hsorted as [|t l _ IH Ht]; intros [|y ys] Hs;
      try discriminate; constructor.
    + injection Hs as _ Hs2. apply IH, Hs2.
    + injection Hs as Hs1 Hs2. unfold notAfter, bySymbol in *. rewrite Hs1.
      clear IH. revert ys Hs2.
      induction Ht as [|z l Hz _ IH']; intros [|w ys] Hs2;
        try discriminate; constructor.
      * injection Hs2 as Hw _. rewrite Hw. exact Hz.
      * injection Hs2 as _ Hs2. apply IH', Hs2.
Qed.

(** De-duplicating and sorting a canonical list changes nothing. *)
Lemma finish_canonical (rt : Runtime) (l : list Token.t) :
  Spec.Canonical rt l -> finish rt l = l.
Proof.
  intros [Hgood [Hnd Hsorted]]. unfold finish.
  rewrite dedupe_canonical.
  - unfold mapValues. rewrite map_map. simpl. rewrite map_id.
    apply sort_sorted_id. exact Hsorted.
  - eapply Forall_impl; [|exact Hgood]. intros t [_ [_ [H _]]]. exact H.
  - exact Hnd.
Qed.

Lemma reinject_canonical (rt : Runtime) (l ys : list Token.t) :
  Spec.Canonical rt l -> Spec.mapM Spec.reicon l = Ok ys ->
  parsePrices rt (Spec.reinject l) = Ok ys.
Proof.
  intros Hc Hm. unfold parsePrices, pushed, Spec.reinject.
  destruct Hc as [Hgood Hrest]. rewrite (pushAll_reinjected rt l [] Hgood), Hm.
  simpl. f_equal. apply finish_canonical.
  destruct (mapM_reicon_spec _ _ Hm) as [H1 [H2 _]].
  exact (canonical_same rt l ys H1 H2 (conj Hgood Hrest)).
Qed.

(** What [parsePrices] returns is canonical. *)
Lemma parsePrices_canonical (rt : Runtime) (data : value) (out : list Token.t) :
  Spec.CaseLaws rt -> Spec.CollationLaws rt ->
  parsePrices rt data = Ok out -> Spec.Canonical rt out.
Proof.
  intros Hcase Hcoll H. split; [|split].
  - apply Forall_forall. intros t Hin. exact (token_good _ _ _ _ Hcase H Hin).
  - destruct (parsePrices_finish _ _ _ H) as [out0 [_ ->]]. apply finish_NoDup.
  - destruct (parsePrices_finish _ _ _ H) as [out0 [_ ->]].
    apply finish_sorted, Hcoll.
Qed.

(** C6 (amended).  Re-injecting the list that [parsePrices] returned
    gives a list with the same symbols and the same prices in the same
    order, whose icon references are derived again, from the upper-case
    symbols.  It is the same list, token for token, when the icons of
    the first list were already those of its upper-case symbols; and the
    second list re-injected is returned unchanged. *)
Theorem reinjection (rt : Runtime) (data : value) (out : list Token.t) :
  Spec.CaseLaws rt -> Spec.CollationLaws rt ->
  parsePrices rt data = Ok out ->
  exists out',
    parsePrices rt (Spec.reinject out) = Ok out'
    /\ map Token.symbol out' = map Token.symbol out
    /\ map Token.price out' = map Token.price out
    /\ Spec.IconsFromSymbols out'
    /\ (Spec.IconsFromSymbols out -> out' = out)
    /\ parsePrices rt (Spec.reinject out') = Ok out'.
Proof.
  intros Hcase Hcoll H.
  pose proof (parsePrices_canonical _ _ _ Hcase Hcoll H) as Hcan.
  destruct (mapM_total Spec.reicon out) as [ys Hys].
  { apply Forall_forall. intros t Hin.
    destruct (token_origin _ _ _ _ H Hin)
      as [c [t0 [_ [_ [[s [_ [Hsym [_ Hi]]]] ->]]]]].
    unfold Spec.reicon. simpl. rewrite Hsym.
    unfold iconUrl in Hi. inv_bind Hi.
    destruct (Spec.upper_encodable rt Hcase _ _ Ha) as [e' He'].
    unfold iconUrl. rewrite He'. simpl. eauto. }
  destruct (mapM_reicon_spec _ _ Hys) as [H1 [H2 H3]].
  exists ys. split; [exact (reinject_canonical rt out ys Hcan Hys)|].
  repeat split; auto.
  - intros Hicons. rewrite (mapM_reicon_fixed _ Hicons) in Hys. congruence.
  - apply reinject_canonical.
    + exact (canonical_same rt out ys H1 H2 Hcan).
    + apply mapM_reicon_fixed, H3.
Qed.

(** The statement holds of the feed [{"btc": 1}]. *)
Lemma reinjection_witness :
  exists out',
    parsePrices Sample.ascii (Spec.reinject [Sample.tokenLower]) = Ok out'
    /\ map Token.symbol out' = map Token.symbol [Sample.tokenLower]
    /\ map Token.price out' = map Token.price [Sample.tokenLower]
    /\ Spec.IconsFromSymbols out'
    /\ (Spec.IconsFromSymbols [Sample.tokenLower] -> out' = [Sample.tokenLower])
    /\ parsePrices Sample.ascii (Spec.reinject out') = Ok out'.
Proof.
  exact (reinjection Sample.ascii Sample.feedLower [Sample.tokenLower]
           SampleFacts.ascii_case SampleFacts.ascii_collation eq_refl).
Defined.

(** C6 as stated fails: the feed [{"btc": 1}] gives the token [BTC]
    with the icon of [btc]; re-injected, that list comes back with the
    icon of [BTC]. *)
Lemma reinjection_changes_icon :
  parsePrices Sample.ascii Sample.feedLower = Ok [Sample.tokenLower]
  /\ parsePrices Sample.ascii (Spec.reinject [Sample.tokenLower])
     = Ok [Sample.tokenUpper]
  /\ [Sample.tokenUpper] <> [Sample.tokenLower].
Proof.
  repeat split; try reflexivity.
  vm_compute. discriminate.
Qed.

End NormalizerClaims.

(* ================================================================== *)
(** * The statements of the design document: quotes and validation *)

Module QuoteClaims.

Import Str StrFacts JS Quote.
Local Open Scope float_scope.

Lemma rate_spec (pin pout : float) :
  rate pin pout
  = (if Num.isFinite pin && Num.isFinite pout && (0 <? pout) then pin / pout else nan)
  /\ PrimFloat.is_nan (rate pin pout)
     = negb (Num.isFinite pin && Num.isFinite pout && (0 <? pout)).
Proof.
  unfold rate. rewrite <- orb_assoc, NumFacts.not_positive_dual.
  destruct (Num.isFinite pin) eqn:E1; simpl; [|auto].
  destruct (Num.isFinite pout) eqn:E2; simpl; [|auto].
  destruct (0 <? pout) eqn:E3; simpl; [|auto].
  split; [reflexivity|].
  apply NumFacts.div_finite_not_nan; auto.
  apply NumFacts.ltb_zero_not_zero, E3.
Qed.

Lemma amountOut_spec (r a : float) :
  amountOut r a
  = (if Num.isFinite r && Num.isFinite a && (0 <? a) then a * r else nan)
  /\ PrimFloat.is_nan (amountOut r a)
     = negb (Num.isFinite r && Num.isFinite a && (0 <? a)).
Proof.
  unfold amountOut.
  destruct (Num.isFinite r) eqn:E1; simpl; [|auto].
  destruct (Num.isFinite a) eqn:E2; simpl; [|auto].
  rewrite (NumFacts.ltb_negb_leb a 0 (NumFacts.isFinite_not_nan _ E2) eq_refl).
  destruct (a <=? 0); simpl; [auto|].
  split; [reflexivity|].
  apply NumFacts.mul_finite_not_nan; assumption.
Qed.

(** Every slippage setting leaves a finite factor [1 - bps / 10000]. *)
Lemma slippage_factor_finite (k : Z) :
  (0 <= k <= 200)%Z -> Num.isFinite (1 - Num.of_Z k / 10000) = true.
Proof.
  intros Hk.
  assert (H : forallb (fun k => Num.isFinite (1 - Num.of_Z k / 10000))
                      Spec.slippageSettings = true) by (vm_compute; reflexivity).
  rewrite forallb_forall in H. apply H.
  unfold Spec.slippageSettings. apply in_map_iff. exists (Z.to_nat k).
  split; [lia|]. apply in_seq. lia.
Qed.

Lemma minReceived_spec (o bps : float) :
  minReceived o bps
  = (if Num.isFinite o then o * (1 - bps / 10000) else nan)
  /\ (Num.isFinite (1 - bps / 10000) = true ->
      PrimFloat.is_nan (minReceived o bps) = negb (Num.isFinite o)).
Proof.
  unfold minReceived. destruct (Num.isFinite o) eqn:E; simpl; [|auto].
  split; [reflexivity|]. intros Hf.
  apply NumFacts.mul_finite_not_nan; assumption.
Qed.

(** C1 (amended).  For every pair of selected tokens, input amount and
    slippage setting (whole basis points from 0 to 200): [rate] is
    [price(tokenIn) / price(tokenOut)] when both prices are finite and
    the output price is above zero, and [NaN] otherwise; [amountOut] is
    [amountIn * rate] when the rate is finite and the amount is finite
    and above zero, and [NaN] otherwise (so a zero or negative amount
    gives [NaN], not 0); [minReceived] is
    [amountOut * (1 - slippageBps / 10000)] when [amountOut] is finite,
    and [NaN] exactly when [amountOut] is not finite: [NaN], or an
    infinity that the product overflowed to.  Nothing is thrown. *)
Theorem quote_values (tokenIn tokenOut : option Token.t) (amountIn : float) (k : Z) :
  (0 <= k <= 200)%Z ->
  let pin := priceOf tokenIn in
  let pout := priceOf tokenOut in
  let q := quote tokenIn tokenOut amountIn (Num.of_Z k) in
  q_rate q
  = (if Num.isFinite pin && Num.isFinite pout && (0 <? pout) then pin / pout else nan)
  /\ PrimFloat.is_nan (q_rate q)
     = negb (Num.isFinite pin && Num.isFinite pout && (0 <? pout))
  /\ q_amountOut q
     = (if Num.isFinite (q_rate q) && Num.isFinite amountIn && (0 <? amountIn)
        then amountIn * q_rate q else nan)
  /\ PrimFloat.is_nan (q_amountOut q)
     = negb (Num.isFinite (q_rate q) && Num.isFinite amountIn && (0 <? amountIn))
  /\ ((amountIn <=? 0) = true -> q_amountOut q = nan)
  /\ q_minReceived q
     = (if Num.isFinite (q_amountOut q)
        then q_amountOut q * (1 - Num.of_Z k / 10000) else nan)
  /\ PrimFloat.is_nan (q_minReceived q) = negb (Num.isFinite (q_amountOut q)).
Proof.
  intros Hk pin pout q. subst q. unfold quote. simpl. fold pin pout.
  destruct (rate_spec pin pout) as [R1 R2].
  destruct (amountOut_spec (rate pin pout) amountIn) as [A1 A2].
  destruct (minReceived_spec (amountOut (rate pin pout) amountIn) (Num.of_Z k))
    as [M1 M2].
  repeat split; auto.
  - intros Hle. unfold amountOut.
    destruct (negb (Num.isFinite (rate pin pout)) || negb (Num.isFinite amountIn));
      [reflexivity|]. rewrite Hle. reflexivity.
  - apply M2, slippage_factor_finite, Hk.
Qed.

(** The statement holds of BTC at 50000 against ETH at 3000, for the
    amount 2 and a slippage of 50 basis points. *)
Lemma quote_values_witness :
  let pin := priceOf (Some Sample.tokenBtc) in
  let pout := priceOf (Some Sample.tokenEth) in
  let q := quote (Some Sample.tokenBtc) (Some Sample.tokenEth) 2 (Num.of_Z 50) in
  q_rate q
  = (if Num.isFinite pin && Num.isFinite pout && (0 <? pout) then pin / pout else nan)
  /\ PrimFloat.is_nan (q_rate q)
     = negb (Num.isFinite pin && Num.isFinite pout && (0 <? pout))
  /\ q_amountOut q
     = (if Num.isFinite (q_rate q) && Num.isFinite 2 && (0 <? 2)
        then 2 * q_rate q else nan)
  /\ PrimFloat.is_nan (q_amountOut q)
     = negb (Num.isFinite (q_rate q) && Num.isFinite 2 && (0 <? 2))
  /\ ((2 <=? 0) = true -> q_amountOut q = nan)
  /\ q_minReceived q
     = (if Num.isFinite (q_amountOut q)
        then q_amountOut q * (1 - Num.of_Z 50 / 10000) else nan)
  /\ PrimFloat.is_nan (q_minReceived q) = negb (Num.isFinite (q_amountOut q)).
Proof.
  apply (quote_values (Some Sample.tokenBtc) (Some Sample.tokenEth) 2 50).
  lia.
Defined.

(** C1 as stated fails: with the prices [2^1023] and 1, which the
    normalizer accepts, and the amount 10, [amountOut] overflows to
    [Infinity], which is not [NaN], and [minReceived] is [NaN], not
    [Infinity * (1 - 50 / 10000)]. *)
Lemma minReceived_nan_on_overflow :
  Normalizer.parsePrices Sample.ascii Sample.feedHuge
  = Ok [Sample.tokenHuge; Sample.tokenOne]
  /\ let q := quote (Some Sample.tokenHuge) (Some Sample.tokenOne) 10 50 in
     q_amountOut q = infinity
     /\ PrimFloat.is_nan (q_amountOut q) = false
     /\ PrimFloat.is_nan (q_minReceived q) = true
     /\ q_amountOut q * (1 - 50 / 10000) = infinity.
Proof. vm_compute. repeat split; reflexivity. Qed.

(** C8 (amended).  [inputUSD] is [amountIn * price(tokenIn)] when the
    amount and the price are both finite, and [NaN] otherwise, and
    [outputUSD] is [amountOut * price(tokenOut)] when both are finite,
    and [NaN] otherwise.  The amount need not be above zero: a zero or
    negative amount has a USD value, while its quote is [NaN]. *)
Theorem usd_values (tokenIn tokenOut : option Token.t) (amountIn amountOut : float) :
  let pin := priceOf tokenIn in
  let pout := priceOf tokenOut in
  inputUSD amountIn pin
  = (if Num.isFinite amountIn && Num.isFinite pin then amountIn * pin else nan)
  /\ PrimFloat.is_nan (inputUSD amountIn pin)
     = negb (Num.isFinite amountIn && Num.isFinite pin)
  /\ outputUSD amountOut pout
     = (if Num.isFinite amountOut && Num.isFinite pout then amountOut * pout else nan)
  /\ PrimFloat.is_nan (outputUSD amountOut pout)
     = negb (Num.isFinite amountOut && Num.isFinite pout).
Proof.
  intros pin pout. unfold inputUSD, outputUSD. repeat split.
  - destruct (Num.isFinite amountIn) eqn:E1; [|reflexivity].
    destruct (Num.isFinite pin) eqn:E2; [|reflexivity].
    simpl. apply NumFacts.mul_finite_not_nan; assumption.
  - destruct (Num.isFinite amountOut) eqn:E1; [|reflexivity].
    destruct (Num.isFinite pout) eqn:E2; [|reflexivity].
    simpl. apply NumFacts.mul_finite_not_nan; assumption.
Qed.

(** C8 as stated fails: for the typed amount ["0"] and BTC at 50000
    against ETH at 3000, the quote [amountOut] is [NaN] and [inputUSD]
    is 0, not [NaN]. *)
Lemma inputUSD_of_zero_amount :
  let amountIn := safeParseNumber Sample.ascii (js "0") in
  let q := quote (Some Sample.tokenBtc) (Some Sample.tokenEth) amountIn 50 in
  amountIn = 0
  /\ PrimFloat.is_nan (q_amountOut q) = true
  /\ inputUSD amountIn (priceOf (Some Sample.tokenBtc)) = 0
  /\ PrimFloat.is_nan (inputUSD amountIn (priceOf (Some Sample.tokenBtc))) = false.
Proof. vm_compute. repeat split; reflexivity. Qed.

(** The verdict computed by [validation] is that of the first rule that
    fails, when the balance is a number. *)
Lemma validation_first_failing (s : Spec.State) :
  PrimFloat.is_nan (Spec.balance s) = false ->
  validation (Spec.tokenIn s) (Spec.tokenOut s) (Spec.amountInText s)
             (Spec.amountIn s) (Spec.balance s) (Spec.amountOut s)
  = Spec.verdict s.
Proof.
  intros Hb. destruct s as [tin tout text a b o]. simpl in Hb.
  unfold validation, Spec.verdict, Spec.rules. simpl.
  destruct tin as [ti|], tout as [to|]; simpl; try reflexivity.
  destruct (eqb (Token.symbol ti) (Token.symbol to)); simpl; [reflexivity|].
  destruct (isEmpty (trim text)); simpl; [reflexivity|].
  rewrite !NumFacts.not_positive_dual.
  destruct (Num.isFinite a) eqn:Ea; simpl; [|reflexivity].
  destruct (0 <? a) eqn:Epos; simpl; [|reflexivity].
  rewrite (NumFacts.ltb_negb_leb a b (NumFacts.isFinite_not_nan _ Ea) Hb).
  destruct (a <=? b); simpl; [|reflexivity].
  destruct (Num.isFinite o && (0 <? o)); reflexivity.
Qed.

(** The first element of a list of rules that fails splits the list:
    the rules before it pass. *)
Lemma first_failing_split (s : Spec.State) (l : list Spec.rule) :
  match find (fun r => negb (Spec.passes s r)) l with
  | Some r => exists before after,
                l = before ++ r :: after
                /\ forallb (Spec.passes s) before = true
                /\ Spec.passes s r = false
  | None => forallb (Spec.passes s) l = true
  end.
Proof.
  induction l as [|r l IH]; simpl; [reflexivity|].
  destruct (Spec.passes s r) eqn:E; simpl.
  - destruct (find (fun r => negb (Spec.passes s r)) l) as [r'|]; [|exact IH].
    destruct IH as [before [after [-> [Hb Hr]]]].
    exists (r :: before), after. simpl. rewrite E, Hb. auto.
  - exists [], l. auto.
Qed.

(** The rules evaluated in order give ok exactly when all of them pass,
    and otherwise the reason of a rule that fails while every rule
    listed before it passes. *)
Lemma verdict_priority (s : Spec.State) :
  Quote.ok (Spec.verdict s) = forallb (Spec.passes s) Spec.rules
  /\ (Quote.ok (Spec.verdict s) = false ->
      exists before r after,
        Spec.rules = before ++ r :: after
        /\ forallb (Spec.passes s) before = true
        /\ Spec.passes s r = false
        /\ Quote.msg (Spec.verdict s) = Spec.reason r).
Proof.
  pose proof (first_failing_split s Spec.rules) as G.
  unfold Spec.verdict.
  destruct (find (fun r => negb (Spec.passes s r)) Spec.rules) as [r|] eqn:E.
  - destruct G as [before [after [Hl [Hb Hr]]]]. split.
    + rewrite Hl, forallb_app. simpl. rewrite Hr, andb_false_r. reflexivity.
    + intros _. exists before, r, after. auto.
  - split; [symmetry; exact G | discriminate].
Qed.

(** C2.  For every state of the validator whose balance is a number
    (the simulated balance never is [NaN]), the verdict is the one
    obtained by evaluating the six rules in their order and stopping at
    the first that fails: both tokens selected, else "Pick tokens";
    distinct symbols, else "Pick two different tokens"; amount text not
    empty once trimmed, else "Enter an amount"; amount finite and above
    zero, else "Enter a valid amount"; amount at most the balance, else
    "Insufficient balance"; output amount finite and above zero, else
    "Unable to quote price".  The verdict is ok exactly when all six
    pass. *)
Theorem validation_verdict (s : Spec.State) :
  PrimFloat.is_nan (Spec.balance s) = false ->
  validation (Spec.tokenIn s) (Spec.tokenOut s) (Spec.amountInText s)
             (Spec.amountIn s) (Spec.balance s) (Spec.amountOut s)
  = Spec.verdict s
  /\ ok (Spec.verdict s) = forallb (Spec.passes s) Spec.rules.
Proof.
  intros Hb. destruct s as [tin tout text a b o]. simpl in Hb.
  unfold validation, Spec.verdict, Spec.rules. simpl.
  destruct tin as [ti|], tout as [to|]; simpl; try (split; reflexivity).
  destruct (eqb (Token.symbol ti) (Token.symbol to)); simpl;
    [split; reflexivity|].
  destruct (isEmpty (trim text)); simpl; [split; reflexivity|].
  rewrite !NumFacts.not_positive_dual.
  destruct (Num.isFinite a) eqn:Ea; simpl; [|split; reflexivity].
  destruct (0 <? a) eqn:Epos; simpl; [|split; reflexivity].
  rewrite (NumFacts.ltb_negb_leb a b (NumFacts.isFinite_not_nan _ Ea) Hb).
  destruct (a <=? b); simpl; [|split; reflexivity].
  destruct (Num.isFinite o && (0 <? o)); simpl; split; reflexivity.
Qed.

(** The statement holds of the state with no token selected and no
    amount typed: the reason is "Pick tokens", the earliest rule, not
    "Enter an amount". *)
Lemma validation_verdict_witness :
  validation None None [] nan 0 nan = Spec.verdict Sample.stateEmpty
  /\ ok (Spec.verdict Sample.stateEmpty)
     = forallb (Spec.passes Sample.stateEmpty) Spec.rules.
Proof.
  exact (validation_verdict Sample.stateEmpty eq_refl).
Defined.

(** The simulated balance of the input token is a number. *)
Lemma balanceIn_not_nan (tokens : list Token.t) (tokenIn : option Token.t) :
  PrimFloat.is_nan (balanceIn tokens tokenIn) = false.
Proof.
  unfold balanceIn. destruct tokenIn as [t|]; [|reflexivity].
  assert (H : forall m : list (jsstring * float),
             Forall (fun kv => PrimFloat.is_nan (snd kv) = false) m ->
             forall k, PrimFloat.is_nan
                         match Normalizer.mapGet m k with Some b => b | None => 0 end
                       = false).
  { induction 1 as [|[k0 v0] m Hv _ IH]; intros k; simpl; [reflexivity|].
    destruct (eqb k k0); [exact Hv | apply IH]. }
  apply H. unfold balances.
  assert (G : forall (l : list Token.t) (m : list (jsstring * float)),
             Forall (fun kv => PrimFloat.is_nan (snd kv) = false) m ->
             Forall (fun kv => PrimFloat.is_nan (snd kv) = false)
                    (fold_left
                       (fun m t => Normalizer.mapSet m (Token.symbol t)
                                     (Balance.pseudoBalance (Token.symbol t))) l m)).
  { induction l as [|u l IH]; intros m Hm; simpl; [exact Hm|].
    apply IH. clear IH.
    assert (Hu : PrimFloat.is_nan (Balance.pseudoBalance (Token.symbol u)) = false).
    { apply NumFacts.isFinite_not_nan.
      apply (BalanceFacts.pseudoBalance_finite (Token.symbol u)). }
    induction Hm as [|[k0 v0] m Hv Hm' IHm]; simpl.
    - constructor; [exact Hu | constructor].
    - destruct (eqb (Token.symbol u) k0); constructor; simpl; auto. }
  apply G. constructor.
Qed.

(** In [App], where the amount is parsed from the text, the balance is
    the simulated one and the output amount is the quote of the
    debounced amount (which may lag behind the amount), the verdict is
    always that of the first failing rule. *)
Lemma validation_of_app (rt : Runtime) (tokens : list Token.t)
      (tin tout : option Token.t) (text : jsstring)
      (debouncedAmountIn bps : float) :
  let a := safeParseNumber rt text in
  let b := balanceIn tokens tin in
  let o := q_amountOut (quote tin tout debouncedAmountIn bps) in
  validation tin tout text a b o
  = Spec.verdict {| Spec.tokenIn := tin; Spec.tokenOut := tout;
                    Spec.amountInText := text; Spec.amountIn := a;
                    Spec.balance := b; Spec.amountOut := o |}.
Proof.
  intros a b o.
  exact (validation_first_failing
           {| Spec.tokenIn := tin; Spec.tokenOut := tout;
              Spec.amountInText := text; Spec.amountIn := a;
              Spec.balance := b; Spec.amountOut := o |}
           (balanceIn_not_nan tokens tin)).
Qed.

(** C10.  [safeParseNumber] removes every comma, then trims; when what
    is left is empty or does not convert to a finite number the result
    is [NaN], and otherwise it is the converted number.  The result is
    thus [NaN] or finite.  The strings [""] and ["   "] give [NaN], not
    0, and ["1,000"] gives what ["1000"] converts to: 1000. *)
Theorem safeParseNumber_spec (rt : Runtime) (v : jsstring) :
  let cleaned := trim (filter (fun c => negb (c =? 44)%Z) v) in
  safeParseNumber rt v
  = (if isEmpty cleaned || negb (Num.isFinite (StringToNumber rt cleaned))
     then nan else StringToNumber rt cleaned)
  /\ (safeParseNumber rt v = nan \/ Num.isFinite (safeParseNumber rt v) = true)
  /\ safeParseNumber rt (js "") = nan
  /\ safeParseNumber rt (js "   ") = nan
  /\ safeParseNumber rt (js "1,000") = safeParseNumber rt (js "1000")
  /\ (StringToNumber rt (js "1000") = 1000 -> safeParseNumber rt (js "1,000") = 1000)
  /\ safeParseNumber Sample.ascii (js "1,000") = 1000.
Proof.
  intros cleaned. subst cleaned. unfold safeParseNumber.
  rewrite <- removeCommas_filter.
  split; [|split; [|split; [|split; [|split; [|split]]]]]; try reflexivity.
  - destruct (isEmpty (trim (removeCommas v))); [reflexivity|].
    destruct (Num.isFinite _); reflexivity.
  - destruct (isEmpty (trim (removeCommas v))); [left; reflexivity|].
    destruct (Num.isFinite (StringToNumber rt (trim (removeCommas v)))) eqn:E;
      [right; exact E | left; reflexivity].
  - intros H. change (trim (removeCommas (js "1,000"))) with (js "1000").
    change (isEmpty (js "1000")) with false. cbv iota.
    rewrite H. reflexivity.
Qed.

End QuoteClaims.

(* ================================================================== *)
(** * The end-to-end scenarios of the design document *)

Module Scenarios.

Import Str JS Normalizer Quote.
Local Open Scope float_scope.

(** The feed [{"BTC": 50000, "ETH": 3000}] gives BTC then ETH. *)
Example scenario_feed :
  parsePrices Sample.ascii Sample.feedBtcEth = Ok Sample.tokensBtcEth.
Proof. reflexivity. Qed.

(** The amount 2 of BTC at 50000 against ETH at 3000, with a slippage of
    50 basis points: rate 16.666667, output 33.333333, minimum received
    33.166667, each within a millionth. *)
Example scenario_quote :
  let q := quote (Some Sample.tokenBtc) (Some Sample.tokenEth)
                 (safeParseNumber Sample.ascii (js "2")) 50 in
  (abs (q_rate q - 16666667 / 1000000) <? 1 / 1000000) = true
  /\ (abs (q_amountOut q - 33333333 / 1000000) <? 1 / 1000000) = true
  /\ (abs (q_minReceived q - 33166667 / 1000000) <? 1 / 1000000) = true.
Proof. vm_compute. repeat split; reflexivity. Qed.

(** An empty amount and an amount that is not a number. *)
Example scenario_amount_text :
  msg (validation (Some Sample.tokenBtc) (Some Sample.tokenEth) (js "")
         (safeParseNumber Sample.ascii (js ""))
         (balanceIn Sample.tokensBtcEth (Some Sample.tokenBtc)) nan)
  = js "Enter an amount"
  /\ msg (validation (Some Sample.tokenBtc) (Some Sample.tokenEth) (js "abc")
            (safeParseNumber Sample.ascii (js "abc"))
            (balanceIn Sample.tokensBtcEth (Some Sample.tokenBtc)) nan)
     = js "Enter a valid amount".
Proof. vm_compute. split; reflexivity. Qed.

(** The balance of BTC is 90.97: the amount 91 exceeds it. *)
Example scenario_balance :
  let a := safeParseNumber Sample.ascii (js "91") in
  (abs (balanceIn Sample.tokensBtcEth (Some Sample.tokenBtc) - 9097 / 100)
   <? 1 / 1000000) = true
  /\ msg (validation (Some Sample.tokenBtc) (Some Sample.tokenEth) (js "91") a
            (balanceIn Sample.tokensBtcEth (Some Sample.tokenBtc))
            (q_amountOut (quote (Some Sample.tokenBtc) (Some Sample.tokenEth) a 50)))
     = js "Insufficient balance".
Proof. vm_compute. split; reflexivity. Qed.

(** The feed with [usdt] and [USDT] gives one token, USDT at 2. *)
Example scenario_usdt :
  parsePrices Sample.ascii Sample.feedUsdt = Ok [Sample.tokenUsdt].
Proof. reflexivity. Qed.

End Scenarios.

(* ================================================================== *)
(** * Properties of the token search *)

Module SearchFacts.

Import Str StrFacts JS Search.
Local Open Scope Z_scope.

Lemma startsWith_spec (s q : jsstring) :
  startsWith s q = true <-> exists post, s = q ++ post.
Proof.
  revert s. induction q as [|c q IH]; intros s.
  - split; [intros _; exists s; reflexivity | intros _; destruct s; reflexivity].
  - destruct s as [|d s]; simpl; split.
    + discriminate.
    + intros [post H]. discriminate.
    + intros H. apply andb_true_iff in H. destruct H as [Hc Hs].
      apply Z.eqb_eq in Hc. apply IH in Hs. destruct Hs as [post ->].
      exists post. congruence.
    + intros [post [= -> ->]]. rewrite Z.eqb_refl. simpl.
      apply IH. exists post. reflexivity.
Qed.

(** [includes] finds exactly the substrings. *)
Lemma includes_spec (s q : jsstring) :
  includes s q = true <-> exists pre post, s = pre ++ q ++ post.
Proof.
  induction s as [|d s IH].
  - change (includes [] q) with (startsWith [] q || false).
    rewrite orb_false_r, startsWith_spec. split.
    + intros [post H]. exists [], post. exact H.
    + intros [pre [post H]]. destruct pre; [exists post; exact H | discriminate].
  - change (includes (d :: s) q) with (startsWith (d :: s) q || includes s q).
    rewrite orb_true_iff, startsWith_spec, IH. split.
    + intros [[post H]|[pre [post H]]].
      * exists [], post. exact H.
      * exists (d :: pre), post. simpl. congruence.
    + intros [pre [post H]]. destruct pre as [|e pre].
      * left. exists post. exact H.
      * right. injection H as _ H. exists pre, post. exact H.
Qed.

Lemma includes_empty (s : jsstring) : includes s [] = true.
Proof. destruct s; reflexivity. Qed.

Lemma includes_trans (s q r : jsstring) :
  includes s q = true -> includes q r = true -> includes s r = true.
Proof.
  rewrite !includes_spec. intros [pre [post ->]] [pre' [post' ->]].
  exists (pre ++ pre'), (post' ++ post). rewrite <- !app_assoc. reflexivity.
Qed.

(** The shortcut taken on an empty query agrees with the filter. *)
Lemma filteredTokens_filter (rt : Runtime) (tokens : option (list Token.t))
      (search : jsstring) :
  filteredTokens rt tokens search
  = filter (fun t => includes (Token.symbol t) (toUpperCase rt (trim search)))
           match tokens with Some l => l | None => [] end.
Proof.
  unfold filteredTokens.
  destruct (toUpperCase rt (trim search)) as [|c q]; simpl; [|reflexivity].
  induction (match tokens with Some l => l | None => [] end) as [|t l IH];
    simpl; [reflexivity|].
  rewrite includes_empty. congruence.
Qed.

(** The search returns exactly the listed tokens whose symbol contains
    the trimmed, upper-cased query as a substring (all of them when the
    query is empty), and it keeps the list free of repeated symbols and
    in order. *)
Theorem filteredTokens_spec (rt : Runtime) (tokens : option (list Token.t))
        (search : jsstring) :
  let list := match tokens with Some l => l | None => [] end in
  let q := toUpperCase rt (trim search) in
  (forall t, In t (filteredTokens rt tokens search)
             <-> In t list /\ exists pre post, Token.symbol t = pre ++ q ++ post)
  /\ (NoDup (map Token.symbol list) ->
      NoDup (map Token.symbol (filteredTokens rt tokens search)))
  /\ (Spec.SortedBySymbol rt list ->
      Spec.SortedBySymbol rt (filteredTokens rt tokens search)).
Proof.
  intros list q. rewrite filteredTokens_filter. fold list q.
  split; [|split].
  - intros t. rewrite filter_In, includes_spec. reflexivity.
  - induction list as [|t l IH]; simpl; intros H; [constructor|].
    inversion H as [|? ? Hnin Hnd]; subst.
    destruct (includes (Token.symbol t) q); [|apply IH, Hnd].
    simpl. constructor; [|apply IH, Hnd].
    intros Hin. apply Hnin. apply in_map_iff in Hin.
    destruct Hin as [u [Hu Hin]]. apply filter_In in Hin.
    apply in_map_iff. exists u. tauto.
  - unfold Spec.SortedBySymbol.
    induction list as [|t l IH]; simpl; intros H; [constructor|].
    inversion H as [|? ? Hl Ht]; subst.
    destruct (includes (Token.symbol t) q); [|apply IH, Hl].
    constructor; [apply IH, Hl|].
    rewrite Forall_forall in *. intros u Hu. apply filter_In in Hu.
    apply Ht. tauto.
Qed.

(** A query that contains another query finds no token that the other
    does not find: typing more narrows the result. *)
Theorem filteredTokens_narrows (rt : Runtime) (tokens : option (list Token.t))
        (search search' : jsstring) :
  includes (toUpperCase rt (trim search')) (toUpperCase rt (trim search)) = true ->
  forall t, In t (filteredTokens rt tokens search') ->
            In t (filteredTokens rt tokens search).
Proof.
  intros H t. rewrite !filteredTokens_filter, !filter_In.
  intros [Hin Hq]. split; [exact Hin|].
  exact (includes_trans _ _ _ Hq H).
Qed.

(** On the list BTC, ETH the query ["eth"] finds ETH, and so does the
    query ["e"]. *)
Lemma filteredTokens_narrows_witness :
  In Sample.tokenEth
     (filteredTokens Sample.ascii (Some Sample.tokensBtcEth) (js "e")).
Proof.
  apply (filteredTokens_narrows Sample.ascii (Some Sample.tokensBtcEth)
           (js "e") (js "eth") eq_refl Sample.tokenEth).
  left. reflexivity.
Defined.

End SearchFacts.

(* ================================================================== *)
(** * More about the price normalizer *)

Module NormalizerMore.

Import Str StrFacts JS JSFacts Normalizer NormalizerFacts.
Local Open Scope Z_scope.

(** ** A [null] row anywhere in an array makes [parsePrices] throw *)

Lemma rowCandidate_nullish (row : value) :
  row = VNull \/ row = VUndefined -> rowCandidate row = Throw TypeError.
Proof. intros [->| ->]; reflexivity. Qed.

Lemma pushAll_nullish (rt : Runtime) (rows : list value) (out : list Token.t) :
  (exists row, In row rows /\ (row = VNull \/ row = VUndefined)) ->
  exists e, pushAll rt rowCandidate rows out = Throw e.
Proof.
  intros [row [Hin Hrow]]. revert out.
  induction rows as [|r rows IH]; intros out; [contradiction|].
  simpl. destruct (rowCandidate r) as [c|e] eqn:Ec; simpl; [|eauto].
  destruct (push rt out (fst c) (snd c)) as [out'|e]; simpl; [|eauto].
  apply IH. destruct Hin as [->|Hin]; [|exact Hin].
  rewrite (rowCandidate_nullish row Hrow) in Ec. discriminate.
Qed.

(** An array feed with a [null] or [undefined] element is never
    normalized: [parsePrices] throws, and gives no partial list, wherever
    the element is and whatever the other rows are. *)
Theorem nullish_row_throws (rt : Runtime) (rows : list value) :
  (exists row, In row rows /\ (row = VNull \/ row = VUndefined)) ->
  exists e, parsePrices rt (VArr rows) = Throw e.
Proof.
  intros H. unfold parsePrices, pushed.
  destruct (pushAll_nullish rt rows [] H) as [e He]. rewrite He. simpl. eauto.
Qed.

(** The array [[{"currency":"usdt","price":"1.00"}, null]]. *)
Lemma nullish_row_throws_witness :
  exists e,
    parsePrices Sample.ascii
      (VArr [ VObj [ (js "currency", VStr (js "usdt"));
                     (js "price", VStr (js "1.00")) ]; VNull ]) = Throw e.
Proof.
  apply (nullish_row_throws Sample.ascii).
  exists VNull. split; [right; left; reflexivity | left; reflexivity].
Defined.

(** The feed [{"BTC": 50000, "ETH": 3000}] is an object whose keys
    [encodeURIComponent] accepts. *)
Lemma object_feed_returns_witness :
  exists out, parsePrices Sample.ascii Sample.feedBtcEth = Ok out.
Proof.
  apply (object_feed_returns Sample.ascii).
  repeat constructor; simpl; eexists; reflexivity.
Defined.

(** ** No accepted symbol is lost, none is invented *)

Lemma symbols_of_pushed (rt : Runtime) (data : value) (out0 out : list Token.t) :
  pushed rt data = Ok out0 -> parsePrices rt data = Ok out ->
  forall k, In k (map Token.symbol out)
            <-> exists t0, In t0 out0 /\ toUpperCase rt (Token.symbol t0) = k.
Proof.
  intros Hp H k. destruct (parsePrices_finish _ _ _ H) as [out1 [Hp' ->]].
  rewrite Hp in Hp'. injection Hp' as <-.
  rewrite <- dedupe_keys, <- dedupe_symbols. split.
  - apply Permutation_in, Permutation_map, finish_perm.
  - apply Permutation_in, Permutation_map, Permutation_sym, finish_perm.
Qed.

(** The symbols of the result are exactly the upper-cased symbols of
    the candidate entries of the feed that are not rejected: none is
    lost, none is invented. *)
Theorem symbols_of_result (rt : Runtime) (data : value) (out : list Token.t) :
  parsePrices rt data = Ok out ->
  forall k, In k (map Token.symbol out)
            <-> exists c t0, Spec.Candidate data c /\ Spec.rejects rt c = false
                             /\ Spec.Yields rt c t0
                             /\ toUpperCase rt (Token.symbol t0) = k.
Proof.
  intros H k. destruct (parsePrices_finish _ _ _ H) as [out0 [Hp _]].
  rewrite (symbols_of_pushed rt data out0 out Hp H k). split.
  - intros [t0 [Hin Hk]].
    pose proof (pushed_spec _ _ _ Hp) as Hall. rewrite Forall_forall in Hall.
    destruct (Hall t0 Hin) as [c [Hc [Hy Hr]]]. exists c, t0. auto.
  - intros [c [t0 [Hc [Hr [Hy Hk]]]]].
    destruct (pushed_order _ _ _ Hp) as [cs [Hcs HF]].
    unfold Spec.Candidate in Hc. rewrite Hcs in Hc. apply in_map_iff in Hc.
    destruct Hc as [c' [Ec Hin]].
    assert (Ec' : c' = c) by congruence. subst c'.
    assert (Hf : In c (filter (fun c => negb (Spec.rejects rt c)) cs)).
    { apply filter_In. split; [exact Hin | rewrite Hr; reflexivity]. }
    destruct (Forall2_yields _ _ _ _ HF Hf) as [t1 [Hin1 Hy1]].
    assert (Et : t1 = t0) by exact (yields_functional _ _ _ _ Hy1 Hy). subst t1.
    exists t0. auto.
Qed.

(** The feed with [usdt] and [USDT], and the symbol [USDT]. *)
Lemma symbols_of_result_witness :
  In (js "USDT") (map Token.symbol [Sample.tokenUsdt])
  <-> exists c t0,
      Spec.Candidate Sample.feedUsdt c /\ Spec.rejects Sample.ascii c = false
      /\ Spec.Yields Sample.ascii c t0
      /\ toUpperCase Sample.ascii (Token.symbol t0) = js "USDT".
Proof.
  exact (symbols_of_result Sample.ascii Sample.feedUsdt [Sample.tokenUsdt] eq_refl
           (js "USDT")).
Defined.

(** ** The order of the feed does not matter when the symbols are unique *)

Lemma dedupe_unique_keys (rt : Runtime) (l : list Token.t) :
  NoDup (map (fun t => toUpperCase rt (Token.symbol t)) l) ->
  dedupe rt l = map (fun t => (toUpperCase rt (Token.symbol t), upperToken rt t)) l.
Proof.
  induction l as [|t l IH] using rev_ind; intros Hnd; [reflexivity|].
  rewrite map_app in Hnd. simpl in Hnd.
  pose proof (NoDup_remove_1 _ _ _ Hnd) as Hnd1.
  pose proof (NoDup_remove_2 _ _ _ Hnd) as Hnd2.
  rewrite app_nil_r in Hnd1, Hnd2.
  rewrite dedupe_snoc, (IH Hnd1), map_app. simpl.
  apply mapSet_fresh. rewrite map_map. simpl. exact Hnd2.
Qed.

(** Two lists in order that hold the same elements are the same list,
    when the comparator tells their elements apart. *)
Lemma sorted_perm_eq {A : Type} (cmp : A -> A -> comparison) (l l' : list A) :
  (forall a b, cmp b a = CompOpp (cmp a b)) ->
  (forall a b, In a l -> In b l -> cmp a b = Eq -> a = b) ->
  StronglySorted (notAfter cmp) l -> StronglySorted (notAfter cmp) l' ->
  Permutation l l' -> l = l'.
Proof.
  intros Hanti. revert l'.
  induction l as [|a l IH]; intros l' Hsep Hs Hs' Hperm.
  - apply Permutation_nil in Hperm. congruence.
  - destruct l' as [|b l'].
    + apply Permutation_sym, Permutation_nil in Hperm. discriminate.
    + inversion Hs as [|? ? Hl Ha]; subst.
      inversion Hs' as [|? ? Hl' Hb]; subst.
      assert (Hab : a = b).
      { assert (Hin_b : In b (a :: l)).
        { apply (Permutation_in _ (Permutation_sym Hperm)). left. reflexivity. }
        assert (Hin_a : In a (b :: l')).
        { apply (Permutation_in _ Hperm). left. reflexivity. }
        destruct Hin_b as [E|Hin_b]; [exact E|].
        destruct Hin_a as [E|Hin_a]; [congruence|].
        rewrite Forall_forall in Ha, Hb.
        pose proof (Ha b Hin_b) as H1. pose proof (Hb a Hin_a) as H2.
        unfold notAfter in H1, H2. rewrite (Hanti a b) in H2.
        apply Hsep; [left; reflexivity | right; exact Hin_b |].
        destruct (cmp a b); simpl in H2; congruence. }
      subst b. f_equal. apply IH; auto.
      * intros x y Hx Hy. apply Hsep; right; assumption.
      * exact (Permutation_cons_inv Hperm).
Qed.

(** Two lists of pushed tokens that hold the same tokens, each
    upper-cased symbol once, are finished to the same list, when the
    collation tells these symbols apart. *)
Lemma finish_order_irrelevant (rt : Runtime) (out0 out0' : list Token.t) :
  Spec.CollationLaws rt ->
  Permutation out0 out0' ->
  NoDup (map (fun t => toUpperCase rt (Token.symbol t)) out0) ->
  (forall a b, In a out0 -> In b out0 ->
               localeCompare rt (toUpperCase rt (Token.symbol a))
                             (toUpperCase rt (Token.symbol b)) = Eq ->
               toUpperCase rt (Token.symbol a) = toUpperCase rt (Token.symbol b)) ->
  finish rt out0 = finish rt out0'.
Proof.
  intros [Hanti Htrans] Hperm Hnd Hsep.
  assert (Hnd' : NoDup (map (fun t => toUpperCase rt (Token.symbol t)) out0')).
  { apply (Permutation_NoDup (l := map (fun t => toUpperCase rt (Token.symbol t)) out0));
      [apply Permutation_map, Hperm | exact Hnd]. }
  unfold finish. rewrite (dedupe_unique_keys rt out0 Hnd), (dedupe_unique_keys rt out0' Hnd').
  unfold mapValues. rewrite !map_map. simpl.
  apply (sorted_perm_eq (bySymbol rt)).
  - intros a b. apply Hanti.
  - intros a b Ha Hb Hab.
    apply (Permutation_in _ (sort_perm (bySymbol rt) _)) in Ha.
    apply (Permutation_in _ (sort_perm (bySymbol rt) _)) in Hb.
    apply in_map_iff in Ha. destruct Ha as [a0 [<- Ha0]].
    apply in_map_iff in Hb. destruct Hb as [b0 [<- Hb0]].
    unfold bySymbol in Hab. simpl in Hab.
    pose proof (Hsep a0 b0 Ha0 Hb0 Hab) as Hk.
    assert (E : a0 = b0).
    { clear - Hnd Ha0 Hb0 Hk. induction out0 as [|x l IH]; [contradiction|].
      simpl in Hnd. inversion Hnd as [|? ? Hnin Hnd']; subst.
      destruct Ha0 as [->|Ha0], Hb0 as [->|Hb0]; auto.
      - exfalso. apply Hnin. rewrite Hk. apply in_map_iff. exists b0. auto.
      - exfalso. apply Hnin. rewrite <- Hk. apply in_map_iff. exists a0. auto. }
    congruence.
  - apply sort_sorted; [intros a b; apply Hanti | intros a b c; apply Htrans].
  - apply sort_sorted; [intros a b; apply Hanti | intros a b c; apply Htrans].
  - eapply Permutation_trans; [apply sort_perm|].
    eapply Permutation_trans; [|apply Permutation_sym, sort_perm].
    apply Permutation_map, Hperm.
Qed.

(** Two feeds whose candidate entries that are not rejected are the
    same up to their order, and yield each upper-cased symbol once, are
    normalized to the same list, when both are normalized and the
    collation tells these symbols apart: the order of the entries of a
    feed does not show in the result. *)
Theorem feed_order_irrelevant (rt : Runtime) (data data' : value)
        (cs cs' : list (value * value)) (out0 out out' : list Token.t) :
  Spec.CollationLaws rt ->
  Spec.candidates data = map Ok cs -> Spec.candidates data' = map Ok cs' ->
  Permutation (filter (fun c => negb (Spec.rejects rt c)) cs)
              (filter (fun c => negb (Spec.rejects rt c)) cs') ->
  Forall2 (Spec.Yields rt) (filter (fun c => negb (Spec.rejects rt c)) cs) out0 ->
  NoDup (map (fun t => toUpperCase rt (Token.symbol t)) out0) ->
  (forall a b, In a out0 -> In b out0 ->
               localeCompare rt (toUpperCase rt (Token.symbol a))
                             (toUpperCase rt (Token.symbol b)) = Eq ->
               toUpperCase rt (Token.symbol a) = toUpperCase rt (Token.symbol b)) ->
  parsePrices rt data = Ok out -> parsePrices rt data' = Ok out' ->
  parsePrices rt data = parsePrices rt data'.
Proof.
  intros Hlaws Hcs Hcs' Hperm Hy Hnd Hsep H H'.
  destruct (parsePrices_finish _ _ _ H) as [o1 [Hp ->]].
  destruct (parsePrices_finish _ _ _ H') as [o2 [Hp' ->]].
  destruct (pushed_order _ _ _ Hp) as [cs1 [E1 F1]].
  destruct (pushed_order _ _ _ Hp') as [cs2 [E2 F2]].
  rewrite Hcs in E1. apply map_Ok_inj in E1. subst cs1.
  rewrite Hcs' in E2. apply map_Ok_inj in E2. subst cs2.
  assert (P1 : Permutation out0 o1).
  { exact (Forall2_perm _ (yields_functional rt) _ _ Hy _ _ F1 (Permutation_refl _)). }
  assert (P2 : Permutation out0 o2).
  { exact (Forall2_perm _ (yields_functional rt) _ _ Hy _ _ F2 Hperm). }
  rewrite H, H'. f_equal.
  rewrite <- (finish_order_irrelevant rt out0 o1 Hlaws P1 Hnd Hsep).
  exact (finish_order_irrelevant rt out0 o2 Hlaws P2 Hnd Hsep).
Qed.

(** The feeds [{"BTC": 50000, "ETH": 3000}] and
    [{"ETH": 3000, "BTC": 50000}]. *)
Lemma feed_order_irrelevant_witness :
  parsePrices Sample.ascii Sample.feedBtcEth
  = parsePrices Sample.ascii
      (VObj [ (js "ETH", VNum 3000); (js "BTC", VNum 50000) ]).
Proof.
  apply (feed_order_irrelevant Sample.ascii Sample.feedBtcEth
           (VObj [ (js "ETH", VNum 3000); (js "BTC", VNum 50000) ])
           [ (VStr (js "BTC"), VNum 50000); (VStr (js "ETH"), VNum 3000) ]
           [ (VStr (js "ETH"), VNum 3000); (VStr (js "BTC"), VNum 50000) ]
           Sample.tokensBtcEth Sample.tokensBtcEth Sample.tokensBtcEth
           SampleFacts.ascii_collation eq_refl eq_refl).
  - apply perm_swap.
  - constructor; [|constructor; [|constructor]].
    + exists (js "BTC"). repeat split; reflexivity.
    + exists (js "ETH"). repeat split; reflexivity.
  - repeat constructor; simpl; intuition discriminate.
  - intros a b [<-|[<-|[]]] [<-|[<-|[]]]; simpl; intros H;
      try reflexivity; vm_compute in H; discriminate.
  - reflexivity.
  - reflexivity.
Defined.

End NormalizerMore.

(* ================================================================== *)
(** * Properties of the session: balances, loading, toasts *)

Module SessionFacts.

Import Str StrFacts JS JSFacts Normalizer NormalizerFacts Quote Session.
Local Open Scope float_scope.

(** ** The map of balances *)

Lemma mapGet_mapSet {V : Type} (m : list (jsstring * V)) (k k' : jsstring) (v : V) :
  mapGet (mapSet m k v) k' = if eqb k' k then Some v else mapGet m k'.
Proof.
  destruct (eqb k' k) eqn:E.
  - apply eqb_eq in E. subst k'. apply mapGet_mapSet_same.
  - apply eqb_neq in E. apply mapGet_mapSet_other, E.
Qed.

Lemma balances_get (tokens : list Token.t) (m : list (jsstring * float)) (k : jsstring) :
  mapGet (fold_left
            (fun m t => mapSet m (Token.symbol t)
                          (Balance.pseudoBalance (Token.symbol t))) tokens m) k
  = if existsb (fun t => eqb k (Token.symbol t)) tokens
    then Some (Balance.pseudoBalance k)
    else mapGet m k.
Proof.
  revert m. induction tokens as [|t l IH]; intros m; simpl; [reflexivity|].
  rewrite IH, mapGet_mapSet.
  destruct (eqb k (Token.symbol t)) eqn:E; simpl.
  - apply eqb_eq in E. subst k.
    destruct (existsb _ l); reflexivity.
  - reflexivity.
Qed.

(** The balance shown for a selected token is its simulated balance,
    at least 1, when its symbol is one of the list, and 0 when it is
    not; with no token selected it is 0. *)
Theorem balanceIn_lookup (tokens : list Token.t) (tokenIn : option Token.t) :
  balanceIn tokens tokenIn
  = match tokenIn with
    | Some t =>
        if existsb (fun u => eqb (Token.symbol t) (Token.symbol u)) tokens
        then Balance.pseudoBalance (Token.symbol t)
        else 0
    | None => 0
    end
  /\ (forall t, tokenIn = Some t -> In t tokens ->
                balanceIn tokens tokenIn = Balance.pseudoBalance (Token.symbol t)
                /\ (1 <=? balanceIn tokens tokenIn) = true).
Proof.
  assert (E : balanceIn tokens tokenIn
              = match tokenIn with
                | Some t =>
                    if existsb (fun u => eqb (Token.symbol t) (Token.symbol u)) tokens
                    then Balance.pseudoBalance (Token.symbol t)
                    else 0
                | None => 0
                end).
  { unfold balanceIn, balances. destruct tokenIn as [t|]; [|reflexivity].
    rewrite balances_get. destruct (existsb _ tokens); reflexivity. }
  split; [exact E|].
  intros t -> Hin. rewrite E.
  assert (Hex : existsb (fun u => eqb (Token.symbol t) (Token.symbol u)) tokens = true).
  { apply existsb_exists. exists t. split; [exact Hin | apply eqb_refl]. }
  rewrite Hex. split; [reflexivity|].
  pose proof (BalanceFacts.balance_of_hash_ok (Balance.hash_fold (Token.symbol t))) as H.
  unfold Balance.balance_ok in H. apply andb_true_iff in H.
  rewrite BalanceFacts.pseudoBalance_fold. apply H.
Qed.

(** ** Loading *)

Lemma nth_error_0_In {A : Type} (l : list A) (x : A) :
  nth_error l 0 = Some x -> In x l.
Proof. destruct l; simpl; [discriminate | intros [= ->]; left; reflexivity]. Qed.






(** ** Toasts *)

Lemma addToast_length (t : Toast) (p : list Toast) :
  (List.length (addToast t p) <= 3)%nat.
Proof. unfold addToast. rewrite length_firstn. lia. Qed.

Lemma dismiss_length (i : jsstring) (p : list Toast) :
  (List.length (dismiss i p) <= List.length p)%nat.
Proof.
  unfold dismiss. induction p as [|t p IH]; simpl; [lia|].
  destruct (negb (eqb (id t) i)); simpl; lia.
Qed.

(** Whatever toasts are added and dismissed, at most three are shown;
    the last one added, if nothing was dismissed since, is the first of
    the stack, and a dismissed toast is not shown. *)
Theorem toasts_bounded (events : list toastEvent) :
  (List.length (toastsAfter events) <= 3)%nat
  /\ (forall t, nth_error (toastsAfter (events ++ [Add t])) 0 = Some t)
  /\ (forall i t, In t (toastsAfter (events ++ [Dismiss i])) -> id t <> i).
Proof.
  unfold toastsAfter. split; [|split].
  - induction events as [|e l IH] using rev_ind; [simpl; lia|].
    rewrite fold_left_app. cbn [fold_left]. destruct e as [t|i]; cbn [toastStep].
    + apply addToast_length.
    + eapply Nat.le_trans; [apply dismiss_length | exact IH].
  - intros t. rewrite fold_left_app. reflexivity.
  - intros i t. rewrite fold_left_app. simpl. unfold dismiss.
    intros H. apply filter_In in H. destruct H as [_ H].
    apply negb_true_iff, eqb_neq in H. exact H.
Qed.

End SessionFacts.

(* ================================================================== *)
(** * More about numbers: [Math.max], signs *)

Module NumMore.

Import Num NumFacts.
Local Open Scope float_scope.

Lemma ltb_leb (a b : float) : (a <? b) = true -> (a <=? b) = true.
Proof.
  rewrite FloatAxioms.ltb_spec, FloatAxioms.leb_spec. unfold SFltb, SFleb.
  destruct (SFcompare (Prim2SF a) (Prim2SF b)) as [[| |]|]; congruence.
Qed.

Lemma leb_refl (a : float) : PrimFloat.is_nan a = false -> (a <=? a) = true.
Proof.
  unfold PrimFloat.is_nan. intros H. apply negb_false_iff in H.
  rewrite FloatAxioms.eqb_spec in H. rewrite FloatAxioms.leb_spec.
  unfold SFeqb in H. unfold SFleb.
  destruct (SFcompare (Prim2SF a) (Prim2SF a)) as [[| |]|]; congruence.
Qed.

(** [Math.max] of two numbers is one of them, and neither is above it. *)
Lemma Math_max_spec (a b : float) :
  PrimFloat.is_nan a = false -> PrimFloat.is_nan b = false ->
  (Math_max a b = a \/ Math_max a b = b)
  /\ (a <=? Math_max a b) = true /\ (b <=? Math_max a b) = true.
Proof.
  intros Ha Hb. unfold Math_max. rewrite Ha, Hb. simpl.
  pose proof (ltb_negb_leb b a Hb Ha) as H1.
  pose proof (ltb_negb_leb a b Ha Hb) as H2.
  destruct (a <? b) eqn:E1.
  - split; [right; reflexivity|]. split; [apply ltb_leb, E1 | apply leb_refl, Hb].
  - destruct (b <? a) eqn:E2.
    + split; [left; reflexivity|]. split; [apply leb_refl, Ha | apply ltb_leb, E2].
    + symmetry in H1, H2. apply negb_false_iff in H1, H2.
      destruct (get_sign a).
      * split; [right; reflexivity|]. split; [congruence | apply leb_refl, Hb].
      * split; [left; reflexivity|]. split; [apply leb_refl, Ha | congruence].
Qed.

(** The sign of a number above zero. *)
Lemma positive_sf (x : float) :
  (0 <? x) = true ->
  (exists m e, sf x = S754_finite false m e) \/ sf x = S754_infinity false.
Proof.
  rewrite FloatAxioms.ltb_spec. unfold SFltb, sf.
  replace (Prim2SF 0) with (S754_zero false) by reflexivity.
  destruct (Prim2SF x) as [s|[|]| |[|] m e]; simpl; try discriminate; eauto.
Qed.

Lemma nonneg_sf (x : float) :
  match sf x with
  | S754_zero _ | S754_finite false _ _ | S754_infinity false => True
  | _ => False
  end -> (0 <=? x) = true.
Proof.
  rewrite FloatAxioms.leb_spec. unfold SFleb, sf.
  replace (Prim2SF 0) with (S754_zero false) by reflexivity.
  destruct (Prim2SF x) as [s|[|]| |[|] m e]; simpl; intros H;
    try contradiction; reflexivity.
Qed.

(** Rounding keeps the sign it is given. *)
Lemma binary_round_aux_sign (sx : bool) (mx ex : Z) (lx : location) :
  (0 <= mx)%Z ->
  match binary_round_aux prec emax sx mx ex lx with
  | S754_zero s | S754_infinity s | S754_finite s _ _ => s = sx
  | S754_nan => False
  end.
Proof.
  intros Hm. pose proof (binary_round_aux_not_nan sx mx ex lx Hm) as Hn.
  unfold binary_round_aux in *.
  destruct (shr_fexp prec emax mx ex lx) as [mrs' e'].
  destruct (shr_fexp prec emax _ e' loc_Exact) as [mrs'' e''].
  destruct (shr_m mrs'') as [|p|p]; try reflexivity; try congruence.
  destruct (e'' <=? emax - prec)%Z; reflexivity.
Qed.

(** The quotient of two numbers above zero, the dividend finite, is not
    below zero. *)
Lemma div_positive (x y : float) :
  isFinite x = true -> (0 <? x) = true -> (0 <? y) = true ->
  (0 <=? x / y) = true.
Proof.
  intros Hfx Hx Hy. apply nonneg_sf. unfold sf.
  rewrite FloatAxioms.div_spec. unfold SF64div.
  rewrite isFinite_sf in Hfx.
  destruct (positive_sf x Hx) as [[mx [ex Ex]]|Ex]; unfold sf in *;
    rewrite Ex in *; [|discriminate].
  destruct (positive_sf y Hy) as [[my [ey Ey]]|Ey]; unfold sf in *;
    rewrite Ey; simpl; [|exact I].
  unfold SFdiv_core_binary.
  set (m' := match _ with Z0 => _ | Zpos _ => _ | Zneg _ => _ end).
  assert (Hm' : (0 <= m')%Z).
  { subst m'. destruct (_ - _ - _)%Z; try lia. apply Z.shiftl_nonneg. lia. }
  pose proof (Z_div_mod m' (Zpos my) ltac:(lia)) as Hd.
  destruct (Z.div_eucl m' (Zpos my)) as [q r].
  assert (Hq : (0 <= q)%Z) by nia.
  pose proof (binary_round_aux_sign false q
      (Z.min (fexp prec emax (Zdigits2 (Zpos mx) + ex - (Zdigits2 (Zpos my) + ey))) (ex - ey))
      (new_location (Zpos my) r) Hq) as H.
  match goal with |- match ?t with _ => _ end => destruct t as [s|s| |s m e] end;
    try contradiction; subst; exact I.
Qed.

(** The product of a number above zero and a finite number not below
    zero is not below zero. *)
Lemma mul_nonneg (x y : float) :
  isFinite x = true -> (0 <? x) = true ->
  isFinite y = true -> (0 <=? y) = true ->
  (0 <=? x * y) = true.
Proof.
  intros Hfx Hx Hfy Hy. apply nonneg_sf. unfold sf.
  rewrite FloatAxioms.mul_spec. unfold SF64mul.
  rewrite isFinite_sf in Hfx, Hfy.
  rewrite FloatAxioms.leb_spec in Hy. unfold SFleb in Hy.
  replace (Prim2SF 0) with (S754_zero false) in Hy by reflexivity.
  destruct (positive_sf x Hx) as [[mx [ex Ex]]|Ex]; unfold sf in *;
    rewrite Ex in *; [|discriminate].
  destruct (Prim2SF y) as [sy|sy| |sy my ey]; simpl in *; try discriminate.
  - exact I.
  - destruct sy; [discriminate|]. simpl.
    pose proof (binary_round_aux_sign false (Zpos (mx * my)) (ex + ey) loc_Exact
                  ltac:(lia)) as H.
    destruct (binary_round_aux _ _ _ _ _ _) as [s|s| |s m e];
      try contradiction; subst; exact I.
Qed.

End NumMore.

(* ================================================================== *)
(** * Properties of the actions and of the quote *)

Module ActionsFacts.

Import Str StrFacts JS JSFacts Quote Actions.
Local Open Scope float_scope.

Lemma residues_max_ok : forallb Checks.max_ok Balance.residues = true.
Proof. vm_compute. reflexivity. Qed.

Lemma max_ok_all (h : Z) : Checks.max_ok h = true.
Proof.
  assert (Hk : Checks.max_ok (h mod 9500) = true).
  { pose proof residues_max_ok as H. rewrite forallb_forall in H. apply H.
    unfold Balance.residues. apply in_map_iff. exists (Z.to_nat (h mod 9500)).
    pose proof (Z.mod_pos_bound h 9500 ltac:(lia)) as Hb.
    split; [lia|]. apply in_seq. lia. }
  unfold Checks.max_ok, Balance.balance_of_hash in *.
  rewrite Z.mod_mod in Hk by lia. exact Hk.
Qed.

(** The simulated balance of a symbol is never above 94.99. *)
Theorem pseudoBalance_at_most (s : jsstring) :
  (Balance.pseudoBalance s <=? Num.of_Z 9499 / Num.of_Z 100) = true.
Proof.
  rewrite BalanceFacts.pseudoBalance_fold.
  pose proof (max_ok_all (Balance.hash_fold s)) as H. unfold Checks.max_ok in H.
  repeat (apply andb_true_iff in H; destruct H as [H ?]). exact H.
Qed.

(** For every symbol, the amount that Max computes from the simulated
    balance is a finite number above zero and below the balance: as an
    amount it passes the rules "Enter a valid amount" and "Insufficient
    balance". *)
Theorem maxAmount_within_balance (s : jsstring) :
  let b := Balance.pseudoBalance s in
  let x := maxAmount b in
  Num.isFinite x = true /\ (0 <? x) = true /\ (x <? b) = true
  /\ forall tin tout text o,
       let st := {| Spec.tokenIn := tin; Spec.tokenOut := tout;
                    Spec.amountInText := text; Spec.amountIn := x;
                    Spec.balance := b; Spec.amountOut := o |} in
       Spec.passes st Spec.AmountValid = true
       /\ Spec.passes st Spec.BalanceSufficient = true.
Proof.
  intros b x. subst b x. rewrite BalanceFacts.pseudoBalance_fold.
  pose proof (max_ok_all (Balance.hash_fold s)) as H. unfold Checks.max_ok in H.
  apply andb_true_iff in H. destruct H as [H H4].
  apply andb_true_iff in H. destruct H as [H H3].
  apply andb_true_iff in H. destruct H as [_ H2].
  repeat split; auto.
  - simpl. rewrite H2, H3. reflexivity.
  - simpl. apply NumMore.ltb_leb, H4.
Qed.

(** Without an input token [onMax] leaves the amount text as it is. *)
Lemma onMax_no_token (rt : Runtime) (b : float) (text : jsstring) :
  onMax rt None b text = text.
Proof. reflexivity. Qed.

(** The network fee shown for a token whose price is finite is a
    number, at least 0.001 and at least the 50000th of the price. *)
Theorem networkFee_floor (t : Token.t) :
  Num.isFinite (Token.price t) = true ->
  PrimFloat.is_nan (networkFee t) = false
  /\ (0.001 <=? networkFee t) = true
  /\ (Token.price t / 50000 <=? networkFee t) = true.
Proof.
  intros Hf. unfold networkFee.
  assert (Hq : PrimFloat.is_nan (Token.price t / 50000) = false).
  { apply NumFacts.div_finite_not_nan; [exact Hf | reflexivity | reflexivity]. }
  destruct (NumMore.Math_max_spec 0.001 (Token.price t / 50000) eq_refl Hq)
    as [Hor [H1 H2]].
  split; [|split; assumption].
  destruct Hor as [-> | ->]; [reflexivity | exact Hq].
Qed.

(** The fee of BTC at 50000. *)
Lemma networkFee_floor_witness :
  PrimFloat.is_nan (networkFee Sample.tokenBtc) = false
  /\ (0.001 <=? networkFee Sample.tokenBtc) = true
  /\ (Token.price Sample.tokenBtc / 50000 <=? networkFee Sample.tokenBtc) = true.
Proof. exact (networkFee_floor Sample.tokenBtc eq_refl). Defined.

(** For two prices above zero and a finite amount above zero, as the
    normalizer and the validator let through, the rate is not below
    zero, and the output amount is [NaN] (the rate overflowed) or not
    below zero: a quote is never negative. *)
Theorem quote_never_negative (pin pout a : float) :
  Num.isFinite pin = true -> (0 <? pin) = true ->
  Num.isFinite pout = true -> (0 <? pout) = true ->
  Num.isFinite a = true -> (0 <? a) = true ->
  rate pin pout = pin / pout
  /\ (0 <=? rate pin pout) = true
  /\ (0 <=? amountOut (rate pin pout) a)
     = negb (PrimFloat.is_nan (amountOut (rate pin pout) a))
  /\ PrimFloat.is_nan (amountOut (rate pin pout) a)
     = negb (Num.isFinite (rate pin pout)).
Proof.
  intros Hfi Hpi Hfo Hpo Hfa Hpa.
  destruct (QuoteClaims.rate_spec pin pout) as [R1 _].
  rewrite Hfi, Hfo, Hpo in R1. simpl in R1.
  assert (Hr : (0 <=? rate pin pout) = true).
  { rewrite R1. apply NumMore.div_positive; assumption. }
  destruct (QuoteClaims.amountOut_spec (rate pin pout) a) as [A1 A2].
  rewrite Hfa, Hpa, !andb_true_r in A1, A2.
  split; [exact R1|]. split; [exact Hr|]. split; [|exact A2].
  rewrite A2. destruct (Num.isFinite (rate pin pout)) eqn:Er; simpl.
  - rewrite A1. apply NumMore.mul_nonneg; assumption.
  - rewrite A1. reflexivity.
Qed.

(** BTC at 50000 against ETH at 3000, for the amount 2. *)
Lemma quote_never_negative_witness :
  rate 50000 3000 = 50000 / 3000
  /\ (0 <=? rate 50000 3000) = true
  /\ (0 <=? amountOut (rate 50000 3000) 2)
     = negb (PrimFloat.is_nan (amountOut (rate 50000 3000) 2))
  /\ PrimFloat.is_nan (amountOut (rate 50000 3000) 2)
     = negb (Num.isFinite (rate 50000 3000)).
Proof.
  exact (quote_never_negative 50000 3000 2 eq_refl eq_refl eq_refl eq_refl
           eq_refl eq_refl).
Defined.

(** Switching sides twice restores the selection, and the rate of the
    switched selection divides the other way round. *)
Lemma onSwapSides_twice (tin tout : option Token.t) :
  (let (a, b) := onSwapSides tin tout in onSwapSides a b) = (tin, tout).
Proof. reflexivity. Qed.

(** ** [safeParseNumber] and its cleaning *)

Lemma trimStart_In (s : jsstring) (c : Z) : In c (trimStart s) -> In c s.
Proof.
  destruct (trimStart_suffix s) as [p [Hp _]]. intros H.
  rewrite Hp. apply in_or_app. right. exact H.
Qed.

Lemma trim_In (s : jsstring) (c : Z) : In c (trim s) -> In c s.
Proof.
  unfold trim, trimEnd. intros H.
  rewrite <- in_rev in H. apply trimStart_In in H.
  rewrite <- in_rev in H. apply trimStart_In, H.
Qed.

Lemma removeCommas_fixed (s : jsstring) : ~ In 44%Z s -> removeCommas s = s.
Proof.
  induction s as [|c r IH]; simpl; intros H; [reflexivity|].
  destruct (Z.eqb_spec c 44) as [->|Hc].
  - exfalso. apply H. left. reflexivity.
  - rewrite IH; [reflexivity|]. intros Hin. apply H. right. exact Hin.
Qed.

(** Cleaning is idempotent: the text without its commas and trimmed
    parses to the same number as the text. *)
Theorem safeParseNumber_cleaned (rt : Runtime) (v : jsstring) :
  safeParseNumber rt (trim (removeCommas v)) = safeParseNumber rt v.
Proof.
  unfold safeParseNumber.
  rewrite (removeCommas_fixed (trim (removeCommas v))).
  - rewrite trim_idem. reflexivity.
  - intros H. apply trim_In in H. exact (removeCommas_no_comma v H).
Qed.

End ActionsFacts.

(* ================================================================== *)
(** * Properties of the icon reference *)

Module IconFacts.

Import Str StrFacts JS JSFacts Normalizer Units.
Local Open Scope Z_scope.

Lemma encodeURIComponent_plain (s : jsstring) :
  forallb unreserved s = true -> encodeURIComponent s = Ok s.
Proof.
  induction s as [|c r IH]; simpl; [reflexivity|].
  intros H. apply andb_true_iff in H. destruct H as [Hc Hr].
  rewrite Hc, (IH Hr). reflexivity.
Qed.

(** For a symbol made of letters, digits and [-_.!~*'()] only, the icon
    reference is the prefix, the symbol itself and [.svg]. *)
Theorem iconUrl_plain (s : jsstring) :
  forallb unreserved s = true ->
  iconUrl s = Ok (iconPrefix ++ s ++ js ".svg").
Proof.
  intros H. unfold iconUrl. rewrite (encodeURIComponent_plain s H). reflexivity.
Qed.

(** The symbol [BTC]. *)
Lemma iconUrl_plain_witness :
  iconUrl (js "BTC") = Ok (iconPrefix ++ js "BTC" ++ js ".svg").
Proof. exact (iconUrl_plain (js "BTC") eq_refl). Defined.

Lemma encodeURIComponent_no_surrogate (s : jsstring) :
  forallb (fun c => negb (isSurrogate c)) s = true ->
  exists e, encodeURIComponent s = Ok e.
Proof.
  induction s as [|c r IH]; [intros _; exists []; reflexivity|].
  cbn [forallb]. intros H. apply andb_true_iff in H. destruct H as [Hc Hr].
  destruct (IH Hr) as [e He].
  apply negb_true_iff in Hc. unfold isSurrogate in Hc.
  apply orb_false_iff in Hc. destruct Hc as [Hl Ht].
  cbn [encodeURIComponent]. rewrite He, Hl, Ht. cbn [bind].
  destruct (unreserved c); eauto.
Qed.

Lemma encodeURIComponent_throws (s : jsstring) (e : error) :
  encodeURIComponent s = Throw e ->
  e = URIError /\ exists c, In c s /\ isSurrogate c = true.
Proof.
  revert e. induction s as [|c rest IH1 IH2] using units_ind; intros e H.
  - discriminate.
  - cbn [encodeURIComponent] in H. destruct (unreserved c).
    + destruct (encodeURIComponent rest) as [r|e'] eqn:E; [discriminate|].
      cbn [bind] in H. assert (He : e' = e) by congruence. subst e'.
      destruct (IH1 _ eq_refl) as [-> [d [Hd Hs]]].
      split; [reflexivity|]. exists d. split; [right; exact Hd | exact Hs].
    + destruct (isLead c) eqn:El.
      * assert (Hc : isSurrogate c = true) by (unfold isSurrogate; rewrite El; reflexivity).
        destruct rest as [|d rest'].
        { injection H as <-. split; [reflexivity|]. exists c. split; [left; reflexivity | exact Hc]. }
        destruct (isTrail d).
        { destruct (encodeURIComponent rest') as [r|e'] eqn:E; [discriminate|].
          cbn [bind] in H. assert (He : e' = e) by congruence. subst e'.
          destruct (IH2 d rest' eq_refl _ E) as [-> _].
          split; [reflexivity|]. exists c. split; [left; reflexivity | exact Hc]. }
        injection H as <-. split; [reflexivity|].
        exists c. split; [left; reflexivity | exact Hc].
      * destruct (isTrail c) eqn:Et.
        { injection H as <-. split; [reflexivity|]. exists c.
          split; [left; reflexivity|]. unfold isSurrogate. rewrite Et.
          apply orb_true_r. }
        destruct (encodeURIComponent rest) as [r|e'] eqn:E; [discriminate|].
        cbn [bind] in H. assert (He : e' = e) by congruence. subst e'.
        destruct (IH1 _ eq_refl) as [-> [d [Hd Hs]]].
        split; [reflexivity|]. exists d. split; [right; exact Hd | exact Hs].
Qed.

(** [iconUrl] returns on every symbol that holds no surrogate code
    unit, and what it returns is URL-safe; when it throws, the error is
    a [URIError] and the symbol holds a surrogate. *)
Theorem iconUrl_errors (s : jsstring) :
  (forallb (fun c => negb (isSurrogate c)) s = true ->
   exists u, iconUrl s = Ok u /\ forallb Spec.urlChar u = true)
  /\ (forall e, iconUrl s = Throw e ->
                e = URIError /\ exists c, In c s /\ isSurrogate c = true).
Proof.
  split.
  - intros H. destruct (encodeURIComponent_no_surrogate s H) as [e He].
    assert (Hu : iconUrl s = Ok (iconPrefix ++ e ++ js ".svg")).
    { unfold iconUrl. rewrite He. reflexivity. }
    eexists. split; [exact Hu|].
    exact (NormalizerClaims.iconUrl_urlChar _ _ Hu).
  - intros e H. unfold iconUrl in H.
    destruct (encodeURIComponent s) as [r|e'] eqn:E; [discriminate|].
    simpl in H. injection H as <-. exact (encodeURIComponent_throws s e' E).
Qed.


(** ** Distinct symbols have distinct icon references *)

Lemma hexDigit_inj (a b : Z) :
  0 <= a < 16 -> 0 <= b < 16 -> hexDigit a = hexDigit b -> a = b.
Proof.
  unfold hexDigit. intros Ha Hb.
  destruct (Z.ltb_spec a 10), (Z.ltb_spec b 10); lia.
Qed.

(** A byte is determined by its two hexadecimal digits. *)
Lemma pct_inj (a b : Z) (l1 l2 : jsstring) :
  0 <= a < 256 -> 0 <= b < 256 ->
  pct a ++ l1 = pct b ++ l2 -> a = b /\ l1 = l2.
Proof.
  intros Ha Hb H. unfold pct in H. simpl in H.
  injection H as H1 H2 H3.
  apply hexDigit_inj in H1; [|apply Z.mod_pos_bound; lia|apply Z.mod_pos_bound; lia].
  apply hexDigit_inj in H2; [|apply Z.mod_pos_bound; lia|apply Z.mod_pos_bound; lia].
  split; [|exact H3].
  Z.div_mod_to_equations. lia.
Qed.

(** The first byte of a code point in UTF-8 tells how many bytes follow,
    and every byte is below 256. *)
Lemma utf8_shape (x : Z) :
  0 <= x < 1114112 ->
  (x < 128 /\ utf8 x = [x])
  \/ (128 <= x < 2048 /\ exists b0 b1, utf8 x = [b0; b1]
        /\ b0 = 192 + x / 64 /\ b1 = 128 + x mod 64
        /\ 194 <= b0 < 224 /\ 128 <= b1 < 192)
  \/ (2048 <= x < 65536 /\ exists b0 b1 b2, utf8 x = [b0; b1; b2]
        /\ b0 = 224 + x / 4096 /\ b1 = 128 + (x / 64) mod 64 /\ b2 = 128 + x mod 64
        /\ 224 <= b0 < 240 /\ 128 <= b1 < 192 /\ 128 <= b2 < 192)
  \/ (65536 <= x /\ exists b0 b1 b2 b3, utf8 x = [b0; b1; b2; b3]
        /\ b0 = 240 + x / 262144 /\ b1 = 128 + (x / 4096) mod 64
        /\ b2 = 128 + (x / 64) mod 64 /\ b3 = 128 + x mod 64
        /\ 240 <= b0 < 248 /\ 128 <= b1 < 192 /\ 128 <= b2 < 192 /\ 128 <= b3 < 192).
Proof.
  intros Hx. unfold utf8.
  destruct (Z.ltb_spec x 128); [left; auto|].
  destruct (Z.ltb_spec x 2048).
  { right; left. split; [lia|]. do 2 eexists. split; [reflexivity|].
    repeat split; Z.div_mod_to_equations; lia. }
  destruct (Z.ltb_spec x 65536).
  { right; right; left. split; [lia|]. do 3 eexists. split; [reflexivity|].
    repeat split; Z.div_mod_to_equations; lia. }
  right; right; right. split; [lia|]. do 4 eexists. split; [reflexivity|].
  repeat split; Z.div_mod_to_equations; lia.
Qed.

(** The escape of a code point is read back unambiguously from the
    front of a string. *)
Lemma escape_inj (x y : Z) (r1 r2 : jsstring) :
  0 <= x < 1114112 -> 0 <= y < 1114112 ->
  escape x ++ r1 = escape y ++ r2 -> x = y /\ r1 = r2.
Proof.
  intros Hx Hy H. unfold escape in H.
  destruct (utf8_shape x Hx) as [[X0 X]|[[X0 [a0 [a1 [X Xb]]]]|[[X0 [a0 [a1 [a2 [X Xb]]]]]|[X0 [a0 [a1 [a2 [a3 [X Xb]]]]]]]]];
  destruct (utf8_shape y Hy) as [[Y0 Y]|[[Y0 [b0 [b1 [Y Yb]]]]|[[Y0 [b0 [b1 [b2 [Y Yb]]]]]|[Y0 [b0 [b1 [b2 [b3 [Y Yb]]]]]]]]];
  rewrite X, Y in H; cbn [flat_map] in H; rewrite <- ?app_assoc in H;
  rewrite ?app_nil_l in H;
  repeat match type of H with
    | pct ?a ++ _ = pct ?b ++ _ =>
        let E := fresh "E" in
        apply pct_inj in H; [destruct H as [E H] | lia | lia]
    end; try lia.
  all: try (split; [|exact H]; Z.div_mod_to_equations; lia).
  all: try (exfalso; clear H; Z.div_mod_to_equations; lia).
Qed.

Lemma escape_head (x : Z) (r : jsstring) :
  exists t, escape x ++ r = 37 :: t.
Proof.
  unfold escape, utf8.
  destruct (x <? 128); [|destruct (x <? 2048); [|destruct (x <? 65536)]];
    simpl; eexists; reflexivity.
Qed.

(** How [encodeURIComponent] consumes the front of a string. *)
Lemma encode_front (c : Z) (rest r : jsstring) :
  encodeURIComponent (c :: rest) = Ok r ->
  (unreserved c = true /\ exists r', encodeURIComponent rest = Ok r' /\ r = c :: r')
  \/ (unreserved c = false /\ isLead c = true
      /\ exists d rest' r', rest = d :: rest' /\ isTrail d = true
                            /\ encodeURIComponent rest' = Ok r'
                            /\ r = escape (65536 + (c - 55296) * 1024 + (d - 56320)) ++ r')
  \/ (unreserved c = false /\ isLead c = false /\ isTrail c = false
      /\ exists r', encodeURIComponent rest = Ok r' /\ r = escape c ++ r').
Proof.
  cbn [encodeURIComponent]. destruct (unreserved c).
  - intros H. inv_bind H. injection H as <-. left. eauto.
  - destruct (isLead c).
    + destruct rest as [|d rest']; [discriminate|].
      destruct (isTrail d) eqn:Et; [|discriminate].
      intros H. inv_bind H.
      assert (Hr : r = escape (65536 + (c - 55296) * 1024 + (d - 56320)) ++ a)
        by congruence.
      right; left. split; [reflexivity|]. split; [reflexivity|].
      exists d, rest', a. auto.
    + destruct (isTrail c); [discriminate|].
      intros H. inv_bind H.
      assert (Hr : r = escape c ++ a) by congruence.
      right; right. split; [reflexivity|]. split; [reflexivity|].
      split; [reflexivity|]. eauto.
Qed.

Lemma unreserved_not_percent (c : Z) : unreserved c = true -> c <> 37.
Proof. intros H ->. discriminate. Qed.

(** [encodeURIComponent] is injective on strings of 16-bit code units. *)
Lemma encodeURIComponent_inj (s1 s2 r : jsstring) :
  forallb isUnit s1 = true -> forallb isUnit s2 = true ->
  encodeURIComponent s1 = Ok r -> encodeURIComponent s2 = Ok r -> s1 = s2.
Proof.
  revert s2 r. induction s1 as [|c1 rest1 IH1 IH2] using units_ind;
    intros s2 r U1 U2 H1 H2.
  - simpl in H1. injection H1 as <-. destruct s2 as [|c2 rest2]; [reflexivity|].
    exfalso. destruct (encode_front _ _ _ H2)
      as [[_ [r' [_ E]]]|[[_ [_ [d [rest' [r' [_ [_ [_ E]]]]]]]]|[_ [_ [_ [r' [_ E]]]]]]].
    + discriminate.
    + destruct (escape_head (65536 + (c2 - 55296) * 1024 + (d - 56320)) r') as [t Ht].
      congruence.
    + destruct (escape_head c2 r') as [t Ht]. congruence.
  - destruct s2 as [|c2 rest2].
    { exfalso. simpl in H2. injection H2 as <-.
      destruct (encode_front _ _ _ H1)
        as [[_ [r' [_ E]]]|[[_ [_ [d [rest' [r' [_ [_ [_ E]]]]]]]]|[_ [_ [_ [r' [_ E]]]]]]].
      - discriminate.
      - destruct (escape_head (65536 + (c1 - 55296) * 1024 + (d - 56320)) r') as [t Ht].
        congruence.
      - destruct (escape_head c1 r') as [t Ht]. congruence. }
    simpl in U1, U2.
    apply andb_true_iff in U1. destruct U1 as [Uc1 Ur1].
    apply andb_true_iff in U2. destruct U2 as [Uc2 Ur2].
    assert (B1 : 0 <= c1 < 65536).
    { unfold isUnit in Uc1. apply andb_true_iff in Uc1. destruct Uc1 as [A B].
      apply Z.leb_le in A. apply Z.ltb_lt in B. lia. }
    assert (B2 : 0 <= c2 < 65536).
    { unfold isUnit in Uc2. apply andb_true_iff in Uc2. destruct Uc2 as [A B].
      apply Z.leb_le in A. apply Z.ltb_lt in B. lia. }
    destruct (encode_front _ _ _ H1)
      as [[V1 [r1 [E1 R1]]]|[[V1 [L1 [d1 [t1 [r1 [T1 [D1 [E1 R1]]]]]]]]|[V1 [L1 [D1 [r1 [E1 R1]]]]]]];
    destruct (encode_front _ _ _ H2)
      as [[V2 [r2 [E2 R2]]]|[[V2 [L2 [d2 [t2 [r2 [T2 [D2 [E2 R2]]]]]]]]|[V2 [L2 [D2 [r2 [E2 R2]]]]]]].
    + (* both unreserved *)
      rewrite R1 in R2. injection R2 as -> ->.
      f_equal. exact (IH1 rest2 _ Ur1 Ur2 E1 E2).
    + exfalso. destruct (escape_head (65536 + (c2 - 55296) * 1024 + (d2 - 56320)) r2) as [t Ht].
      rewrite R1, Ht in R2. injection R2 as -> _. discriminate.
    + exfalso. destruct (escape_head c2 r2) as [t Ht].
      rewrite R1, Ht in R2. injection R2 as -> _. discriminate.
    + exfalso. destruct (escape_head (65536 + (c1 - 55296) * 1024 + (d1 - 56320)) r1) as [t Ht].
      rewrite R2, Ht in R1. injection R1 as -> _. discriminate.
    + (* both surrogate pairs *)
      subst rest1 rest2. simpl in Ur1, Ur2.
      apply andb_true_iff in Ur1. destruct Ur1 as [Ud1 Ut1].
      apply andb_true_iff in Ur2. destruct Ur2 as [Ud2 Ut2].
      unfold isLead in L1, L2. unfold isTrail in D1, D2.
      apply andb_true_iff in L1, L2, D1, D2.
      destruct L1 as [L1a L1b], L2 as [L2a L2b], D1 as [D1a D1b], D2 as [D2a D2b].
      apply Z.leb_le in L1a, L1b, L2a, L2b, D1a, D1b, D2a, D2b.
      rewrite R1 in R2. apply escape_inj in R2; [|lia|lia].
      destruct R2 as [Hcp ->].
      assert (c1 = c2 /\ d1 = d2) as [-> ->] by lia.
      do 2 f_equal. exact (IH2 d2 t1 eq_refl t2 _ Ut1 Ut2 E1 E2).
    + (* a pair against a single unit *)
      exfalso. subst rest1.
      unfold isLead in L1. unfold isTrail in D1.
      apply andb_true_iff in L1, D1. destruct L1 as [L1a L1b], D1 as [D1a D1b].
      apply Z.leb_le in L1a, L1b, D1a, D1b.
      rewrite R1 in R2. apply escape_inj in R2; [|lia|lia]. lia.
    + exfalso. destruct (escape_head c1 r1) as [t Ht].
      rewrite R2, Ht in R1. injection R1 as -> _. discriminate.
    + exfalso. subst rest2.
      unfold isLead in L2. unfold isTrail in D2.
      apply andb_true_iff in L2, D2. destruct L2 as [L2a L2b], D2 as [D2a D2b].
      apply Z.leb_le in L2a, L2b, D2a, D2b.
      rewrite R1 in R2. apply escape_inj in R2; [|lia|lia]. lia.
    + (* both single units *)
      rewrite R1 in R2. apply escape_inj in R2; [|lia|lia].
      destruct R2 as [-> ->]. f_equal. exact (IH1 rest2 _ Ur1 Ur2 E1 E2).
Qed.

(** Two symbols of 16-bit code units with the same icon reference are
    the same symbol. *)
Theorem iconUrl_inj (s1 s2 u : jsstring) :
  forallb isUnit s1 = true -> forallb isUnit s2 = true ->
  iconUrl s1 = Ok u -> iconUrl s2 = Ok u -> s1 = s2.
Proof.
  intros U1 U2 H1 H2. unfold iconUrl in H1, H2.
  destruct (encodeURIComponent s1) as [e1|] eqn:E1; [|discriminate].
  destruct (encodeURIComponent s2) as [e2|] eqn:E2; [|discriminate].
  unfold bind in H1, H2.
  assert (He : iconPrefix ++ e1 ++ js ".svg" = iconPrefix ++ e2 ++ js ".svg") by congruence.
  apply app_inv_head, app_inv_tail in He. subst e2.
  exact (encodeURIComponent_inj s1 s2 e1 U1 U2 E1 E2).
Qed.

(** The symbol [BTC], twice. *)
Lemma iconUrl_inj_witness : js "BTC" = js "BTC".
Proof.
  exact (iconUrl_inj (js "BTC") (js "BTC")
           (iconPrefix ++ js "BTC" ++ js ".svg") eq_refl eq_refl eq_refl eq_refl).
Defined.

End IconFacts.
